(** * imgv: the canvas goroutine of the image viewer (canvas.go)

    A shallow embedding of [canvas], [setImage], [originTrans] and [show],
    and the properties of the view state they maintain.

    Go's [int] is modelled as [Z] with 64-bit two's-complement wrap-around on
    every addition and subtraction; slices are lists indexed by [Z] with the
    run-time bounds check written out; a nil pointer is [None]; a run-time
    panic is the [Panicked] result.  Calls on the window collaborator and
    sends on the load channels are recorded, in order, in a trace; that a
    send waits for the load goroutine to receive is not part of the model. *)

From Stdlib Require Import ZArith Lia DecimalString.
From stdpp Require Import base list strings.

Local Open Scope Z_scope.

(** ** Machine integers *)

Module Int.

Definition minInt : Z := - 2 ^ 63.
Definition maxInt : Z := 2 ^ 63 - 1.

(** The value a 64-bit signed register holds after an operation whose
    mathematical result is [z]. *)
Definition wrap (z : Z) : Z := (z + 2 ^ 63) mod 2 ^ 64 - 2 ^ 63.

Definition add (a b : Z) : Z := wrap (a + b).
Definition sub (a b : Z) : Z := wrap (a - b).

Definition ok (z : Z) : Prop := minInt <= z <= maxInt.

(** [%d] of [fmt.Sprintf]. *)
Definition itoa (z : Z) : string := NilZero.string_of_int (Z.to_int z).

End Int.

(** ** Run-time panics *)

Inductive panic : Set :=
| NilPointerDereference
| IndexOutOfRange
| MakeLenOutOfRange.

Inductive result (A : Type) : Type :=
| Ok (a : A)
| Panicked (p : panic).

Arguments Ok {A} a.
Arguments Panicked {A} p.

(** A panic ends the computation: [result] is an error monad, written with
    stdpp's [x ← r; k]. *)
#[global] Instance result_ret : MRet result := @Ok.
#[global] Instance result_bind : MBind result := λ A B k r,
  match r with
  | Ok a => k a
  | Panicked p => Panicked p
  end.
#[global] Instance result_fmap : FMap result := λ A B f r,
  match r with
  | Ok a => Ok (f a)
  | Panicked p => Panicked p
  end.

(** ** package image: points and rectangles *)

Record Point : Set := Pt { X : Z; Y : Z }.

Record Rectangle : Set := Rectangle_ { Min : Point; Max : Point }.

(** [image.Rect]: the rectangle with the given corners, put in canonical
    order. *)
Definition Rect (x0 y0 x1 y1 : Z) : Rectangle :=
  let '(x0, x1) := if x1 <? x0 then (x1, x0) else (x0, x1) in
  let '(y0, y1) := if y1 <? y0 then (y1, y0) else (y0, y1) in
  Rectangle_ (Pt x0 y0) (Pt x1 y1).

Definition Dx (r : Rectangle) : Z := Int.sub (X (Max r)) (X (Min r)).
Definition Dy (r : Rectangle) : Z := Int.sub (Y (Max r)) (Y (Min r)).

(** ** Collaborators *)

(** Modelled from the spec: the image object contract.  The declaration of
    [vimage] is not part of canvas.go; the canvas uses only its bounds (an
    [image.Rectangle]) and its display name. *)
Record vimage : Set := Vimage { Bounds : Rectangle; name : string }.

(** Modelled from the spec: the window collaborator.  The canvas reads the
    window geometry ([Geom.Width()], [Geom.Height()]) and calls [ClearAll],
    [nameSet], [paint] and [Resize] on it. *)
Record geom : Set := Geom_ { Width : Z; Height : Z }.
Record window : Set := Window { Geom : geom }.

(** What the canvas does to the outside world. *)
Inductive effect : Set :=
| ClearAll
| nameSet (title : string)
| paint (img : vimage) (sub : Rectangle)   (* win.paint(img.SubImage(sub)) *)
| Resize (w h : Z)
| ping (ch : nat).                         (* ch <- struct{}{} *)

(** ** Slices *)

Definition len {A : Type} (l : list A) : Z := Z.of_nat (length l).

(** [l[i]] as an expression. *)
Definition index {A : Type} (l : list A) (i : Z) : result A :=
  if (i <? 0) || (len l <=? i) then Panicked IndexOutOfRange
  else match l !! Z.to_nat i with
       | Some a => Ok a
       | None => Panicked IndexOutOfRange
       end.

(** [l[i] = a]. *)
Definition store {A : Type} (l : list A) (i : Z) (a : A) : result (list A) :=
  if (i <? 0) || (len l <=? i) then Panicked IndexOutOfRange
  else Ok (<[Z.to_nat i := a]> l).

(** ** originTrans *)

Definition setX (pt : Point) (x : Z) : Point := Pt x (Y pt).
Definition setY (pt : Point) (y : Z) : Point := Pt (X pt) y.

(** [min] and [max] are the two-argument integer helpers of the package:
    [Z.min] and [Z.max]. *)
Definition originTrans (pt : Point) (win : window) (img : option vimage) : Point :=
  match img with
  | None => Pt 0 0
  | Some img =>
      let ww := Width (Geom win) in
      let wh := Height (Geom win) in
      let dw := Int.sub (Dx (Bounds img)) ww in
      let dh := Int.sub (Dy (Bounds img)) wh in
      let pt := setX pt (Z.min (Int.add (X (Min (Bounds img))) dw) (Z.max (X pt) 0)) in
      let pt := setY pt (Z.min (Int.add (Y (Min (Bounds img))) dh) (Z.max (Y pt) 0)) in
      let pt := if Dx (Bounds img) <? ww then setX pt 0 else pt in
      let pt := if Dy (Bounds img) <? wh then setY pt 0 else pt in
      pt
  end.

(** ** show *)

Definition show (win : window) (img : option vimage) (pt : Point) : list effect :=
  match img with
  | None => []
  | Some v =>
      let pt := originTrans pt win (Some v) in
      [ paint v (Rect (X pt) (Y pt)
                      (Int.add (X pt) (Width (Geom win)))
                      (Int.add (Y pt) (Height (Geom win))));
        nameSet (name v +:+ " (" +:+ Int.itoa (Dx (Bounds v)) +:+ "x"
                 +:+ Int.itoa (Dy (Bounds v)) +:+ ")") ]
  end.

(** ** The state of the canvas goroutine *)

(** The variables captured by [setImage] and by the loop.  A load channel is
    identified by the index it was made for; [None] is the nil channel. *)
Record State : Type := MkState {
  win : window;
  names : list string;
  imgs : list (option vimage);
  imgLoadChans : list (option nat);
  current : Z;
  origin : Point;
  panStart : Point;
  panOrigin : Point;
  trace : list effect
}.

Definition set_imgs (s : State) (l : list (option vimage)) : State :=
  MkState (win s) (names s) l (imgLoadChans s) (current s) (origin s)
          (panStart s) (panOrigin s) (trace s).
Definition set_imgLoadChans (s : State) (l : list (option nat)) : State :=
  MkState (win s) (names s) (imgs s) l (current s) (origin s)
          (panStart s) (panOrigin s) (trace s).
Definition set_current (s : State) (i : Z) : State :=
  MkState (win s) (names s) (imgs s) (imgLoadChans s) i (origin s)
          (panStart s) (panOrigin s) (trace s).
Definition set_origin (s : State) (pt : Point) : State :=
  MkState (win s) (names s) (imgs s) (imgLoadChans s) (current s) pt
          (panStart s) (panOrigin s) (trace s).
Definition set_pan (s : State) (start orig : Point) : State :=
  MkState (win s) (names s) (imgs s) (imgLoadChans s) (current s) (origin s)
          start orig (trace s).
Definition set_win (s : State) (w : window) : State :=
  MkState w (names s) (imgs s) (imgLoadChans s) (current s) (origin s)
          (panStart s) (panOrigin s) (trace s).
Definition emit (s : State) (es : list effect) : State :=
  MkState (win s) (names s) (imgs s) (imgLoadChans s) (current s) (origin s)
          (panStart s) (panOrigin s) (trace s ++ es).

(** ** setImage *)

(** The index [setImage] settles on: the two wrap-around tests. *)
Definition normalize (n i : Z) : Z :=
  let i := if n <=? i then 0 else i in
  let i := if i <? 0 then Int.sub n 1 else i in
  i.

Definition setImage (s : State) (i : Z) (pt : Point) : result State :=
  let i := normalize (len (imgs s)) i in
  let s := if negb (current s =? i) then emit s [ClearAll] else s in
  let s := set_current s i in
  img ← index (imgs s) i;
  match img with
  | None =>
      nm ← index (names s) i;
      let s := emit s [nameSet (nm +:+ " - Loading...")] in
      ch ← index (imgLoadChans s) i;
      match ch with
      | Some c =>
          let s := emit s [ping c] in
          chans ← store (imgLoadChans s) i None;
          Ok (set_imgLoadChans s chans)
      | None => Ok s
      end
  | Some _ =>
      cur ← index (imgs s) (current s);
      let s := set_origin s (originTrans pt (win s) cur) in
      Ok (emit s (show (win s) img (origin s)))
  end.

(** ** The select loop *)

(** One message on one of the channels of [chans].  The value sent on
    [drawChan] is a function value, which may be nil: [None]. *)
Inductive event : Type :=
| imgChan (img : option vimage) (index : Z)
| drawChan (funpt : option (Point -> Point))
| resizeToImageChan
| prevImg
| nextImg
| panStartChan (pt : Point)
| panStepChan (pt : Point)
| panEndChan (pt : Point).

(** One iteration of the [for { select { ... } }] loop. *)
Definition step (s : State) (e : event) : result State :=
  match e with
  | imgChan img i =>
      l ← store (imgs s) i img;
      let s := set_imgs s l in
      if current s =? i then
        cur ← index (imgs s) (current s);
        Ok (emit s (show (win s) cur (origin s)))
      else Ok s
  | drawChan funpt =>
      match funpt with
      | None => Panicked NilPointerDereference
      | Some f => setImage s (current s) (f (origin s))
      end
  | resizeToImageChan =>
      cur ← index (imgs s) (current s);
      match cur with
      | None => Panicked NilPointerDereference
      | Some v => Ok (emit s [Resize (Dx (Bounds v)) (Dy (Bounds v))])
      end
  | prevImg => setImage s (Int.sub (current s) 1) (Pt 0 0)
  | nextImg => setImage s (Int.add (current s) 1) (Pt 0 0)
  | panStartChan pt => Ok (set_pan s pt (origin s))
  | panStepChan pt =>
      let xd := Int.sub (X (panStart s)) (X pt) in
      let yd := Int.sub (Y (panStart s)) (Y pt) in
      setImage s (current s)
               (Pt (Int.add xd (X (panOrigin s))) (Int.add yd (Y (panOrigin s))))
  | panEndChan _ => Ok (set_pan s (Pt 0 0) (Pt 0 0))
  end.

(** The state in which the loop starts: [canvas] up to the [go] statement. *)
Definition canvas (window : window) (names : list string) (nimgs : Z) : result State :=
  if nimgs <? 0 then Panicked MakeLenOutOfRange
  else Ok {| win := window;
             names := names;
             imgs := replicate (Z.to_nat nimgs) None;
             imgLoadChans := Some <$> seq 0 (Z.to_nat nimgs);
             current := 0;
             origin := Pt 0 0;
             panStart := Pt 0 0;
             panOrigin := Pt 0 0;
             trace := [] |}.

(** What happens between two iterations is either a message taken by the
    loop or the window collaborator changing the window geometry. *)
Inductive action : Type :=
| Recv (e : event)
| Configure (g : geom).

Definition act (s : State) (a : action) : result State :=
  match a with
  | Recv e => step s e
  | Configure g => Ok (set_win s (Window g))
  end.

Fixpoint run (s : State) (acts : list action) : result State :=
  match acts with
  | [] => Ok s
  | a :: acts => s' ← act s a; run s' acts
  end.

(** ** Vocabulary of the properties *)

(** A run of the goroutine from its start. *)
Definition boot (window : window) (names : list string) (nimgs : Z)
    (acts : list action) : result State :=
  s0 ← canvas window names nimgs; run s0 acts.

(** The image in the slot at [current]; [None] while it is not loaded. *)
Definition viewed (s : State) : option vimage :=
  match index (imgs s) (current s) with
  | Ok img => img
  | Panicked _ => None
  end.

(** The stored origin is a point the clamp returns for the viewed image and
    the window as it is now. *)
Definition in_clamp_range (s : State) : Prop :=
  originTrans (origin s) (win s) (viewed s) = origin s.

(** The events whose handler calls [setImage] (a nil view transform panics
    before the call). *)
Definition switches (e : event) : bool :=
  match e with
  | drawChan _ | prevImg | nextImg | panStepChan _ => true
  | _ => false
  end.

(** The actions that leave the view alone when the current slot is [cur]:
    pan starts, pan ends and load completions for another slot.  A change of
    the window geometry, and a resize-to-image request, which asks the
    window for one, are not among them. *)
Definition keeps (cur : Z) (a : action) : bool :=
  match a with
  | Recv (imgChan _ i) => negb (cur =? i)
  | Recv (panStartChan _) | Recv (panEndChan _) => true
  | _ => false
  end.

(** The box [[0, max(0, imgW - winW)] x [0, max(0, imgH - winH)]] moved by the
    minimum bound of the image. *)
Definition offset_box (win : window) (img : vimage) (r : Point) : Prop :=
  let b := Bounds img in
  X (Min b) <= X r <= X (Min b) + Z.max 0 (Dx b - Width (Geom win)) /\
  Y (Min b) <= Y r <= Y (Min b) + Z.max 0 (Dy b - Height (Geom win)).

(** The same box with only its upper corner moved by the minimum bound. *)
Definition upper_offset_box (win : window) (img : vimage) (r : Point) : Prop :=
  let b := Bounds img in
  0 <= X r <= X (Min b) + Z.max 0 (Dx b - Width (Geom win)) /\
  0 <= Y r <= Y (Min b) + Z.max 0 (Dy b - Height (Geom win)).

(** The effects of reaching slot [j] before anything is painted. *)
Definition cleared (s : State) (j : Z) : list effect :=
  if current s =? j then [] else [ClearAll].

(** One axis of [originTrans] on a loaded image: [d] is the extent of the
    image, [w] that of the window, [u] the upper bound [Min + slack]. *)
Definition clamp1 (d w u p : Z) : Z :=
  if d <? w then 0 else Z.min u (Z.max p 0).

(** The states the loop is meant to run in: at least one image, a name for
    each, one load channel per slot, and [current] a valid index. *)
Record wf (s : State) : Prop := {
  wf_nonempty : 1 <= len (imgs s);
  wf_len : len (imgs s) <= Int.maxInt;
  wf_chans : length (imgLoadChans s) = length (imgs s);
  wf_names : (length (imgs s) <= length (names s))%nat;
  wf_current : 0 <= current s < len (imgs s)
}.

(** How often channel [k] was sent on. *)
Fixpoint pings (k : nat) (tr : list effect) : nat :=
  match tr with
  | [] => 0
  | ping c :: tr => (if Nat.eqb c k then 1 else 0) + pings k tr
  | _ :: tr => pings k tr
  end.

(** How many slots still hold channel [k]. *)
Fixpoint armed (k : nat) (chans : list (option nat)) : nat :=
  match chans with
  | [] => 0
  | Some c :: chans => (if Nat.eqb c k then 1 else 0) + armed k chans
  | None :: chans => armed k chans
  end.

(** ** Sample data *)

Definition win400x300 : window := Window (Geom_ 400 300).
Definition img800x600 (nm : string) : vimage :=
  Vimage (Rectangle_ (Pt 0 0) (Pt 800 600)) nm.
Definition img100x100 (nm : string) : vimage :=
  Vimage (Rectangle_ (Pt 0 0) (Pt 100 100)) nm.
(** A 100x100 image whose bounds start at (-10, -10). *)
Definition imgShifted : vimage :=
  Vimage (Rectangle_ (Pt (-10) (-10)) (Pt 90 90)) "c.png".

(** The view-transform [origin -> origin + (1000, 1000)]. *)
Definition plus1000 (o : Point) : Point :=
  Pt (Int.add (X o) 1000) (Int.add (Y o) 1000).

(** Show the first image, scroll to its far corner, move on to the second
    image before it is loaded. *)
Definition scrollThenNext : list action :=
  [ Recv (imgChan (Some (img800x600 "a.png")) 0);
    Recv (drawChan (Some plus1000));
    Recv nextImg ].

(** Three slots, none loaded, and three channels not yet pinged. *)
Definition threeUnloaded (cur : Z) : State :=
  {| win := win400x300; names := ["a.png"; "b.png"; "c.png"];
     imgs := [None; None; None];
     imgLoadChans := [Some 0%nat; Some 1%nat; Some 2%nat];
     current := cur; origin := Pt 0 0; panStart := Pt 0 0;
     panOrigin := Pt 0 0; trace := [] |}.

(** The first of three slots loaded and on view, with the given origin. *)
Definition firstLoaded (o : Point) : State :=
  set_origin
    (set_imgs (threeUnloaded 0) [Some (img800x600 "a.png"); None; None]) o.

Definition twoNames : list string := ["a.png"; "b.png"].

(** The same, and then the second image arrives: it is 100x100. *)
Definition scrollNextLoad : list action :=
  scrollThenNext ++ [ Recv (imgChan (Some (img100x100 "b.png")) 1) ].

(** Forth, back and forth again between two images that never load. *)
Definition revisit : list action := [ Recv nextImg; Recv prevImg; Recv nextImg ].

(** ** Vocabulary of the further properties *)

(** The actions the loop always returns from when it has [n] slots: every
    action but a resize-to-image request, a view transform whose function is
    nil and a load completion whose index is not one of the slots. *)
Definition safe (n : Z) (a : action) : bool :=
  match a with
  | Recv (imgChan _ i) => (0 <=? i) && (i <? n)
  | Recv resizeToImageChan => false
  | Recv (drawChan None) => false
  | _ => true
  end.


(** The action is a load completion for slot [n]. *)
Definition writes (n : nat) (a : action) : bool :=
  match a with
  | Recv (imgChan _ i) => i =? Z.of_nat n
  | _ => false
  end.

(** Slot [k] either still holds its own channel, not pinged so far, or holds
    nil and its channel was pinged once. *)
Definition slot_synced (s : State) (k : nat) : Prop :=
  (pings k (trace s) = 0%nat /\ imgLoadChans s !! k = Some (Some k)) \/
  (pings k (trace s) = 1%nat /\ imgLoadChans s !! k = Some None).

(** ** Results: facts *)

Lemma Ok_inj {A : Type} (a b : A) : Ok a = Ok b -> a = b.
Proof. now intros [= ->]. Qed.

(** ** Machine integers: facts *)

(** Linear arithmetic with the bounds of [int] spelled out. *)
Ltac int_lia :=
  unfold Int.ok, Int.minInt, Int.maxInt in *;
  change (2 ^ 63) with 9223372036854775808 in *;
  lia.

Lemma wrap_ok z : Int.ok (Int.wrap z).
Proof.
  unfold Int.ok, Int.wrap, Int.minInt, Int.maxInt.
  change (2 ^ 64) with (2 * 2 ^ 63).
  pose proof (Z.mod_pos_bound (z + 2 ^ 63) (2 * 2 ^ 63)) as Hb.
  assert (0 < 2 ^ 63) by (apply Z.pow_pos_nonneg; lia). lia.
Qed.

Lemma wrap_id z : Int.ok z -> Int.wrap z = z.
Proof.
  unfold Int.ok, Int.wrap, Int.minInt, Int.maxInt. intros Hz.
  change (2 ^ 64) with (2 * 2 ^ 63).
  assert (0 < 2 ^ 63) by (apply Z.pow_pos_nonneg; lia).
  rewrite Z.mod_small; lia.
Qed.

Lemma sub_exact a b : Int.ok (a - b) -> Int.sub a b = a - b.
Proof. apply wrap_id. Qed.

Lemma add_exact a b : Int.ok (a + b) -> Int.add a b = a + b.
Proof. apply wrap_id. Qed.

Lemma Dx_ok r : Int.ok (Dx r).
Proof. apply wrap_ok. Qed.

Lemma Dy_ok r : Int.ok (Dy r).
Proof. apply wrap_ok. Qed.

(** When the image is at least as wide as a window of non-negative width,
    the slack [dw] is computed without overflow. *)
Lemma slack_exact d w : Int.ok d -> 0 <= w <= d -> Int.sub d w = d - w.
Proof.
  intros Hd Hw. apply sub_exact. int_lia.
Qed.

(** ** The Geometry Transform *)

Lemma originTrans_axes pt win img :
  originTrans pt win (Some img) =
  let b := Bounds img in
  let ww := Width (Geom win) in
  let wh := Height (Geom win) in
  Pt (clamp1 (Dx b) ww (Int.add (X (Min b)) (Int.sub (Dx b) ww)) (X pt))
     (clamp1 (Dy b) wh (Int.add (Y (Min b)) (Int.sub (Dy b) wh)) (Y pt)).
Proof.
  unfold originTrans, clamp1, setX, setY. cbn.
  destruct (Dx (Bounds img) <? Width (Geom win));
    destruct (Dy (Bounds img) <? Height (Geom win)); reflexivity.
Qed.

Lemma clamp1_idem d w u p : clamp1 d w u (clamp1 d w u p) = clamp1 d w u p.
Proof. unfold clamp1. destruct (d <? w); [reflexivity | lia]. Qed.

Lemma clamp1_between d w u p :
  ~ d < w -> Z.min 0 u <= clamp1 d w u p <= u.
Proof. unfold clamp1. destruct (Z.ltb_spec d w); lia. Qed.

(** C4. The clamp is idempotent, for every point, window size and image,
    the nil image included: clamping a clamped point changes nothing. *)
Theorem originTrans_idempotent (pt : Point) (win : window) (img : option vimage) :
  originTrans (originTrans pt win img) win img = originTrans pt win img.
Proof.
  destruct img as [v|]; [|reflexivity].
  rewrite !originTrans_axes. cbn. now rewrite !clamp1_idem.
Qed.

(** C5. An image narrower than the window pins the X coordinate of the result
    to 0 whatever the input, and an image lower than the window pins Y. *)
Theorem originTrans_small_image_pinned (pt : Point) (win : window) (img : vimage) :
  (Dx (Bounds img) < Width (Geom win) -> X (originTrans pt win (Some img)) = 0) /\
  (Dy (Bounds img) < Height (Geom win) -> Y (originTrans pt win (Some img)) = 0).
Proof.
  rewrite originTrans_axes. cbn. unfold clamp1. split; intros H.
  - destruct (Z.ltb_spec (Dx (Bounds img)) (Width (Geom win))); [reflexivity | lia].
  - destruct (Z.ltb_spec (Dy (Bounds img)) (Height (Geom win))); [reflexivity | lia].
Qed.

Lemma originTrans_small_image_pinned_witness :
  X (originTrans (Pt 250 40) win400x300 (Some (img100x100 "b.png"))) = 0 /\
  Y (originTrans (Pt 250 40) win400x300 (Some (img100x100 "b.png"))) = 0.
Proof.
  destruct (originTrans_small_image_pinned (Pt 250 40) win400x300 (img100x100 "b.png"))
    as [Hx Hy].
  split; [apply Hx | apply Hy]; vm_compute; reflexivity.
Defined.

(** One axis, for bounds from [m] to [M] with [0 <= m <= M]: the extent
    [M - m], the slack and the upper bound are computed without overflow. *)
Lemma clamp1_upper m M w p :
  Int.ok M -> 0 <= m <= M -> 0 <= w ->
  0 <= clamp1 (Int.sub M m) w (Int.add m (Int.sub (Int.sub M m) w)) p
    <= m + Z.max 0 (Int.sub M m - w).
Proof.
  intros HM Hm Hw. rewrite (sub_exact M m) by int_lia.
  unfold clamp1. destruct (Z.ltb_spec (M - m) w) as [Hlt|Hge]; [lia |].
  rewrite (sub_exact (M - m) w) by int_lia.
  rewrite add_exact by int_lia. lia.
Qed.

Lemma clamp1_range0 d w p :
  Int.ok d -> 0 <= w ->
  0 <= clamp1 d w (Int.add 0 (Int.sub d w)) p <= Z.max 0 (d - w).
Proof.
  intros Hd Hw. unfold clamp1.
  destruct (Z.ltb_spec d w) as [Hlt|Hge]; [lia |].
  rewrite (slack_exact d w Hd) by lia. rewrite add_exact by int_lia. lia.
Qed.

(** C3, as the code has it.  For a window of non-negative size and an image
    whose bounds have [int] coordinates with [0 <= Min.X <= Max.X] and
    [0 <= Min.Y <= Max.Y], the clamped point lies within
    [[0, Min.X + max(0, imgW - winW)] x [0, Min.Y + max(0, imgH - winH)]]: the
    lower end of the range is 0, not the minimum bound, and only the upper
    end is moved by the minimum bound.  For an image whose bounds start at
    (0, 0) that is the box [[0, max(0, imgW - winW)] x [0, max(0, imgH -
    winH)]]; and with a 400x300 window and an 800x600 image,
    [origin + (1000, 1000)] clamps to (400, 300) for every origin with
    coordinates from 0 to [maxInt - 1000], for which the sum does not
    overflow.  Bounds with a negative minimum coordinate are left out. *)
Theorem originTrans_range :
  (forall (pt : Point) (win : window) (img : vimage),
      let b := Bounds img in
      0 <= Width (Geom win) -> 0 <= Height (Geom win) ->
      0 <= X (Min b) <= X (Max b) -> 0 <= Y (Min b) <= Y (Max b) ->
      Int.ok (X (Max b)) -> Int.ok (Y (Max b)) ->
      let r := originTrans pt win (Some img) in
      0 <= X r <= X (Min b) + Z.max 0 (Dx b - Width (Geom win)) /\
      0 <= Y r <= Y (Min b) + Z.max 0 (Dy b - Height (Geom win))) /\
  (forall (pt : Point) (win : window) (img : vimage),
      let b := Bounds img in
      0 <= Width (Geom win) -> 0 <= Height (Geom win) ->
      Min b = Pt 0 0 ->
      let r := originTrans pt win (Some img) in
      0 <= X r <= Z.max 0 (Dx b - Width (Geom win)) /\
      0 <= Y r <= Z.max 0 (Dy b - Height (Geom win))) /\
  (forall (o : Point) (nm : string),
      0 <= X o <= Int.maxInt - 1000 -> 0 <= Y o <= Int.maxInt - 1000 ->
      originTrans (plus1000 o) win400x300 (Some (img800x600 nm)) = Pt 400 300).
Proof.
  split; [| split].
  - intros pt win img b Hw Hh Hx Hy HMx HMy r. subst r.
    rewrite originTrans_axes. fold b. cbn [X Y]. unfold Dx, Dy.
    split; apply clamp1_upper; assumption.
  - intros pt win img b Hw Hh Hmin r. subst r. rewrite originTrans_axes.
    fold b. cbn [X Y]. rewrite Hmin. cbn [X Y].
    split; apply clamp1_range0; auto using Dx_ok, Dy_ok.
  - intros o nm Hx Hy. rewrite originTrans_axes. unfold plus1000. cbn.
    change (Dx _) with 800. change (Dy _) with 600.
    change (Int.add 0 (Int.sub 800 400)) with 400.
    change (Int.add 0 (Int.sub 600 300)) with 300.
    rewrite !add_exact by int_lia.
    unfold clamp1. cbn. f_equal; lia.
Qed.

Lemma originTrans_range_witness :
  (0 <= X (originTrans (Pt 1000 (-7)) win400x300
             (Some (Vimage (Rectangle_ (Pt 100 50) (Pt 900 650)) "d.png"))) <= 500 /\
   0 <= Y (originTrans (Pt 1000 (-7)) win400x300
             (Some (Vimage (Rectangle_ (Pt 100 50) (Pt 900 650)) "d.png"))) <= 350) /\
  (0 <= X (originTrans (Pt 1000 1000) win400x300 (Some (img800x600 "a.png"))) <= 400 /\
   0 <= Y (originTrans (Pt 1000 1000) win400x300 (Some (img800x600 "a.png"))) <= 300) /\
  originTrans (plus1000 (Pt 0 0)) win400x300 (Some (img800x600 "a.png")) = Pt 400 300.
Proof.
  destruct originTrans_range as (Hrange & Hzero & Hscn). split; [| split].
  - apply (Hrange (Pt 1000 (-7)) win400x300
             (Vimage (Rectangle_ (Pt 100 50) (Pt 900 650)) "d.png"));
      vm_compute; try split; discriminate.
  - apply (Hzero (Pt 1000 1000) win400x300 (img800x600 "a.png"));
      [vm_compute; discriminate | vm_compute; discriminate | reflexivity].
  - apply Hscn; vm_compute; split; discriminate.
Defined.

(** C3, as stated, fails.  For a 100x100 image whose bounds start at
    (-10, -10), in a 400x300 window, the clamp returns (0, 0); the stated box
    moved by the minimum bound is the single point (-10, -10), and the box
    with only its upper corner moved is empty. *)
Lemma originTrans_outside_offset_box :
  originTrans (Pt 7 7) win400x300 (Some imgShifted) = Pt 0 0 /\
  ~ offset_box win400x300 imgShifted
      (originTrans (Pt 7 7) win400x300 (Some imgShifted)) /\
  ~ upper_offset_box win400x300 imgShifted
      (originTrans (Pt 7 7) win400x300 (Some imgShifted)).
Proof.
  split; [reflexivity |].
  split; intros [[H1 H2] _]; vm_compute in H1, H2; auto.
Qed.

(** ** Slices: facts *)

Lemma index_Ok {A : Type} (l : list A) (i : Z) (a : A) :
  index l i = Ok a <-> 0 <= i < len l /\ l !! Z.to_nat i = Some a.
Proof.
  unfold index.
  destruct (Z.ltb_spec i 0); destruct (Z.leb_spec (len l) i); cbn;
    try (split; [discriminate | lia]).
  destruct (l !! Z.to_nat i) as [b|] eqn:Hl; split.
  - intros [= ->]. split; [lia | reflexivity].
  - intros [_ [= ->]]. reflexivity.
  - discriminate.
  - intros [_ [=]].
Qed.

Lemma index_total {A : Type} (l : list A) (i : Z) :
  0 <= i < len l -> exists a, index l i = Ok a.
Proof.
  intros Hi. destruct (lookup_lt_is_Some_2 l (Z.to_nat i)) as [a Ha].
  { unfold len in Hi. lia. }
  exists a. apply index_Ok. auto.
Qed.

Lemma store_Ok {A : Type} (l : list A) (i : Z) (a : A) :
  0 <= i < len l -> store l i a = Ok (<[Z.to_nat i := a]> l).
Proof.
  intros Hi. unfold store.
  destruct (Z.ltb_spec i 0); destruct (Z.leb_spec (len l) i); cbn; (reflexivity || lia).
Qed.

Lemma store_inv {A : Type} (l l' : list A) (i : Z) (a : A) :
  store l i a = Ok l' -> 0 <= i < len l /\ l' = <[Z.to_nat i := a]> l.
Proof.
  unfold store.
  destruct (Z.ltb_spec i 0); destruct (Z.leb_spec (len l) i); cbn;
    try discriminate.
  intros [= <-]. split; [lia | reflexivity].
Qed.

Lemma len_insert {A : Type} (l : list A) (n : nat) (a : A) :
  len (<[n := a]> l) = len l.
Proof. unfold len. now rewrite length_insert. Qed.

(** ** setImage: facts *)

(** Reduce the field updates of a state down to its fields. *)
Ltac fields :=
  unfold set_imgs, set_imgLoadChans, set_current, set_origin, set_pan,
    set_win, emit;
  cbn [win names imgs imgLoadChans current origin panStart panOrigin trace].

Lemma normalize_range n i :
  1 <= n <= Int.maxInt -> 0 <= normalize n i < n.
Proof.
  intros Hn. unfold normalize.
  destruct (Z.leb_spec n i).
  - change (0 <? 0) with false. cbn. lia.
  - destruct (Z.ltb_spec i 0); [| lia].
    rewrite sub_exact by int_lia. lia.
Qed.

Lemma normalize_id n i : 0 <= i < n -> normalize n i = i.
Proof.
  intros Hi. unfold normalize.
  destruct (Z.leb_spec n i); [lia |].
  destruct (Z.ltb_spec i 0); [lia | reflexivity].
Qed.

Lemma normalize_next n c :
  1 <= n <= Int.maxInt -> 0 <= c < n ->
  normalize n (Int.add c 1) = if c =? n - 1 then 0 else c + 1.
Proof.
  intros Hn Hc. rewrite add_exact by int_lia. unfold normalize.
  destruct (Z.eqb_spec c (n - 1)); destruct (Z.leb_spec n (c + 1)); try lia.
  - reflexivity.
  - destruct (Z.ltb_spec (c + 1) 0); [lia | reflexivity].
Qed.

Lemma normalize_prev n c :
  1 <= n <= Int.maxInt -> 0 <= c < n ->
  normalize n (Int.sub c 1) = if c =? 0 then n - 1 else c - 1.
Proof.
  intros Hn Hc. rewrite (sub_exact c 1) by int_lia. unfold normalize.
  destruct (Z.leb_spec n (c - 1)); [lia |].
  destruct (Z.eqb_spec c 0); destruct (Z.ltb_spec (c - 1) 0); try lia.
  apply sub_exact. int_lia.
Qed.

(** [setImage] on a slot that is not loaded. *)
Lemma setImage_unloaded s i pt nm ch :
  let j := normalize (len (imgs s)) i in
  index (imgs s) j = Ok None ->
  index (names s) j = Ok nm ->
  index (imgLoadChans s) j = Ok ch ->
  setImage s i pt =
  Ok {| win := win s; names := names s; imgs := imgs s;
        imgLoadChans := <[Z.to_nat j := None]> (imgLoadChans s);
        current := j; origin := origin s;
        panStart := panStart s; panOrigin := panOrigin s;
        trace := trace s ++ cleared s j ++ [nameSet (nm +:+ " - Loading...")]
                 ++ match ch with Some c => [ping c] | None => [] end |}.
Proof.
  intros j Himg Hnm Hch. unfold setImage, cleared. fold j.
  destruct (current s =? j); cbn [negb]; fields;
    rewrite Himg; cbn [mbind result_bind]; fields;
    rewrite Hnm; cbn [mbind result_bind]; fields;
    rewrite Hch; cbn [mbind result_bind]; fields;
    apply index_Ok in Hch as [Hj Hl];
    (destruct ch as [c|];
     [ rewrite store_Ok by assumption; cbn [mbind result_bind]; fields
     | rewrite list_insert_id by assumption ];
     rewrite <- ?app_assoc; reflexivity).
Qed.

(** [setImage] on a loaded slot. *)
Lemma setImage_loaded s i pt v :
  let j := normalize (len (imgs s)) i in
  index (imgs s) j = Ok (Some v) ->
  setImage s i pt =
  Ok {| win := win s; names := names s; imgs := imgs s;
        imgLoadChans := imgLoadChans s;
        current := j; origin := originTrans pt (win s) (Some v);
        panStart := panStart s; panOrigin := panOrigin s;
        trace := trace s ++ cleared s j
                 ++ show (win s) (Some v) (originTrans pt (win s) (Some v)) |}.
Proof.
  intros j Himg. unfold setImage, cleared. fold j.
  destruct (current s =? j); cbn [negb]; fields;
    rewrite Himg; cbn [mbind result_bind]; fields;
    rewrite ?Himg; cbn [mbind result_bind]; fields;
    rewrite <- ?app_assoc; reflexivity.
Qed.

(** A successful [setImage] went one of the two ways above. *)
Lemma setImage_inv s i pt s' :
  setImage s i pt = Ok s' ->
  let j := normalize (len (imgs s)) i in
  (exists nm ch,
      index (imgs s) j = Ok None /\ index (names s) j = Ok nm /\
      index (imgLoadChans s) j = Ok ch /\
      setImage s i pt =
      Ok {| win := win s; names := names s; imgs := imgs s;
            imgLoadChans := <[Z.to_nat j := None]> (imgLoadChans s);
            current := j; origin := origin s;
            panStart := panStart s; panOrigin := panOrigin s;
            trace := trace s ++ cleared s j ++ [nameSet (nm +:+ " - Loading...")]
                     ++ match ch with Some c => [ping c] | None => [] end |}) \/
  (exists v,
      index (imgs s) j = Ok (Some v) /\
      setImage s i pt =
      Ok {| win := win s; names := names s; imgs := imgs s;
            imgLoadChans := imgLoadChans s;
            current := j; origin := originTrans pt (win s) (Some v);
            panStart := panStart s; panOrigin := panOrigin s;
            trace := trace s ++ cleared s j
                     ++ show (win s) (Some v) (originTrans pt (win s) (Some v)) |}).
Proof.
  intros H j.
  destruct (index (imgs s) j) as [[v|]|p] eqn:Himg.
  - right. exists v. split; [reflexivity |]. now apply setImage_loaded.
  - destruct (index (names s) j) as [nm|p] eqn:Hnm;
      [destruct (index (imgLoadChans s) j) as [ch|p] eqn:Hch |].
    + left. exists nm, ch. repeat (split; [reflexivity |]).
      now apply setImage_unloaded.
    + exfalso. revert H. unfold setImage. fold j.
      destruct (current s =? j); cbn [negb]; fields;
        rewrite Himg; cbn [mbind result_bind]; fields;
        rewrite Hnm; cbn [mbind result_bind]; fields;
        rewrite Hch; discriminate.
    + exfalso. revert H. unfold setImage. fold j.
      destruct (current s =? j); cbn [negb]; fields;
        rewrite Himg; cbn [mbind result_bind]; fields;
        rewrite Hnm; discriminate.
  - exfalso. revert H. unfold setImage. fold j.
    destruct (current s =? j); cbn [negb]; fields;
      rewrite Himg; discriminate.
Qed.

(** ** Well-formed states *)

Lemma wf_slot s j :
  wf s -> 0 <= j < len (imgs s) ->
  exists o nm ch,
    index (imgs s) j = Ok o /\ index (names s) j = Ok nm /\
    index (imgLoadChans s) j = Ok ch.
Proof.
  intros [H1 H2 H3 H4 H5] Hj. unfold len in *.
  destruct (index_total (imgs s) j) as [o Ho]; [unfold len; lia |].
  destruct (index_total (names s) j) as [nm Hnm]; [unfold len; lia |].
  destruct (index_total (imgLoadChans s) j) as [ch Hch]; [unfold len; lia |].
  eauto 8.
Qed.

Lemma wf_normalize s i :
  wf s -> 0 <= normalize (len (imgs s)) i < len (imgs s).
Proof. intros Hwf. apply normalize_range. destruct Hwf; lia. Qed.

(** On a well-formed state [setImage] returns, in a well-formed state, at
    the normalized index. *)
Lemma setImage_total s i pt :
  wf s ->
  exists s', setImage s i pt = Ok s' /\ wf s' /\
             current s' = normalize (len (imgs s)) i /\ imgs s' = imgs s.
Proof.
  intros Hwf. pose proof (wf_normalize s i Hwf) as Hj.
  destruct (wf_slot s _ Hwf Hj) as (o & nm & ch & Ho & Hnm & Hch).
  destruct Hwf as [H1 H2 H3 H4 H5]. destruct o as [v|].
  - eexists. split; [now apply setImage_loaded with (v := v) |].
    split; [constructor; cbn; auto | split; reflexivity].
  - eexists. split; [now apply setImage_unloaded with (nm := nm) (ch := ch) |].
    split; [constructor; cbn; auto; now rewrite length_insert | split; reflexivity].
Qed.

Lemma wf_setImage s i pt s' : wf s -> setImage s i pt = Ok s' -> wf s'.
Proof.
  intros Hwf H. destruct (setImage_total s i pt Hwf) as (s2 & H2 & Hwf2 & _).
  congruence.
Qed.

Lemma wf_step s e s' : wf s -> step s e = Ok s' -> wf s'.
Proof.
  intros Hwf. destruct e as [o i|[f|]| | | |pt|pt|pt]; cbn [step]; try discriminate;
    try (now apply wf_setImage).
  - destruct (store (imgs s) i o) as [l|p] eqn:Hst; [|discriminate].
    apply store_inv in Hst as [Hi ->]. cbn [mbind result_bind]. fields.
    destruct Hwf as [H1 H2 H3 H4 H5].
    assert (wf (set_imgs s (<[Z.to_nat i := o]> (imgs s)))) as Hwf'.
    { constructor; fields; rewrite ?len_insert, ?length_insert; auto. }
    destruct (current s =? i).
    + destruct (index _ (current s)) as [cur|p]; [|discriminate].
      intros [= <-]. destruct Hwf'. constructor; auto.
    + intros [= <-]. exact Hwf'.
  - destruct (index (imgs s) (current s)) as [[v|]|p]; try discriminate.
    intros [= <-]. destruct Hwf. constructor; auto.
  - intros [= <-]. destruct Hwf. constructor; auto.
  - intros [= <-]. destruct Hwf. constructor; auto.
Qed.

Lemma wf_act s a s' : wf s -> act s a = Ok s' -> wf s'.
Proof.
  destruct a as [e|g]; cbn [act]; [apply wf_step |].
  intros Hwf [= <-]. destruct Hwf. constructor; auto.
Qed.

Lemma wf_run acts : forall s s', wf s -> run s acts = Ok s' -> wf s'.
Proof.
  induction acts as [|a acts IH]; intros s s' Hwf; cbn [run].
  - now intros [= <-].
  - destruct (act s a) as [s1|p] eqn:Ha; [|discriminate].
    cbn [mbind result_bind]. apply IH. eapply wf_act; eauto.
Qed.

Lemma wf_canvas window names nimgs :
  1 <= nimgs <= Int.maxInt -> nimgs <= len names ->
  exists s0, canvas window names nimgs = Ok s0 /\ wf s0.
Proof.
  intros Hn Hnames. unfold canvas.
  destruct (Z.ltb_spec nimgs 0); [lia |].
  eexists. split; [reflexivity |]. unfold len in *.
  constructor; cbn; unfold len;
    rewrite ?length_replicate, ?length_fmap, ?length_seq; lia.
Qed.

(** ** Runs *)

Lemma run_app acts1 : forall s acts2,
  run s (acts1 ++ acts2) = s' ← run s acts1; run s' acts2.
Proof.
  induction acts1 as [|a acts1 IH]; intros s acts2; cbn [run app].
  - reflexivity.
  - destruct (act s a) as [s1|p]; cbn [mbind result_bind]; [apply IH | reflexivity].
Qed.

Lemma boot_snoc window names nimgs acts a s :
  boot window names nimgs (acts ++ [a]) = Ok s ->
  exists s1, boot window names nimgs acts = Ok s1 /\ act s1 a = Ok s.
Proof.
  unfold boot. destruct (canvas window names nimgs) as [s0|p]; [|discriminate].
  cbn [mbind result_bind]. rewrite run_app.
  destruct (run s0 acts) as [s1|p]; [|discriminate].
  cbn [mbind result_bind run]. destruct (act s1 a) as [s2|p] eqn:Ha; [|discriminate].
  cbn [mbind result_bind]. intros [= <-]. eauto.
Qed.

(** The handler of a switching event, when it returns, is a call of
    [setImage]. *)
Lemma step_switches s e s' :
  switches e = true -> step s e = Ok s' ->
  exists i pt, setImage s i pt = Ok s'.
Proof.
  destruct e as [o i|[f|]| | | |pt|pt|pt]; try discriminate;
    intros _; cbn [step]; try discriminate; eauto.
Qed.

(** ** Navigation *)

(** C6. With N >= 1 images and [current] in [0, N): Next at N-1 goes to 0 and
    otherwise to [current + 1]; Previous at 0 goes to N-1 and otherwise to
    [current - 1]. *)
Theorem next_prev_wraparound (s : State) :
  wf s ->
  let N := len (imgs s) in
  (current s = N - 1 -> exists s', step s nextImg = Ok s' /\ current s' = 0) /\
  (current s < N - 1 ->
   exists s', step s nextImg = Ok s' /\ current s' = current s + 1) /\
  (current s = 0 -> exists s', step s prevImg = Ok s' /\ current s' = N - 1) /\
  (0 < current s ->
   exists s', step s prevImg = Ok s' /\ current s' = current s - 1).
Proof.
  intros Hwf N. cbn [step].
  destruct (setImage_total s (Int.add (current s) 1) (Pt 0 0) Hwf)
    as (sn & Hn & _ & Hcn & _).
  destruct (setImage_total s (Int.sub (current s) 1) (Pt 0 0) Hwf)
    as (sp & Hp & _ & Hcp & _).
  destruct Hwf as [H1 H2 H3 H4 H5]. fold N in H1, H2, H5, Hcn, Hcp.
  rewrite normalize_next in Hcn by lia. rewrite normalize_prev in Hcp by lia.
  repeat split; intros Hc.
  - exists sn. split; [assumption |]. rewrite Hcn.
    destruct (Z.eqb_spec (current s) (N - 1)); [reflexivity | lia].
  - exists sn. split; [assumption |]. rewrite Hcn.
    destruct (Z.eqb_spec (current s) (N - 1)); [lia | reflexivity].
  - exists sp. split; [assumption |]. rewrite Hcp.
    destruct (Z.eqb_spec (current s) 0); [reflexivity | lia].
  - exists sp. split; [assumption |]. rewrite Hcp.
    destruct (Z.eqb_spec (current s) 0); [lia | reflexivity].
Qed.

Lemma next_prev_wraparound_witness :
  (exists s', step (threeUnloaded 2) nextImg = Ok s' /\ current s' = 0) /\
  (exists s', step (threeUnloaded 1) nextImg = Ok s' /\ current s' = 2) /\
  (exists s', step (threeUnloaded 0) prevImg = Ok s' /\ current s' = 2) /\
  (exists s', step (threeUnloaded 1) prevImg = Ok s' /\ current s' = 0).
Proof.
  assert (forall c, 0 <= c < 3 -> wf (threeUnloaded c)) as Hwf
    by (intros c Hc; constructor; unfold len; cbn; int_lia).
  destruct (next_prev_wraparound (threeUnloaded 2)) as (H2 & _);
    [apply Hwf; lia |].
  destruct (next_prev_wraparound (threeUnloaded 1)) as (_ & H1n & _ & H1p);
    [apply Hwf; lia |].
  destruct (next_prev_wraparound (threeUnloaded 0)) as (_ & _ & H0 & _);
    [apply Hwf; lia |].
  split; [apply H2; reflexivity |].
  split; [apply H1n; reflexivity |].
  split; [apply H0; reflexivity | apply H1p; reflexivity].
Defined.

(** ** Switching to a slot that is not loaded *)

Lemma viewed_Some s v :
  viewed s = Some v <-> index (imgs s) (current s) = Ok (Some v).
Proof.
  unfold viewed. destruct (index (imgs s) (current s)) as [o|p]; split;
    (congruence || discriminate).
Qed.

(** C10. When Switch-To reaches a slot that is not loaded, the candidate
    point is dropped: [origin] keeps its value; [current] becomes the slot,
    the window is cleared if the slot changed, the title is set to the
    Loading placeholder, the channel of the slot is pinged if it was still
    there and is nil afterwards; nothing else changes.  The same holds for
    every event that switches, Previous and Next included. *)
Theorem switch_to_unloaded_keeps_origin :
  (forall (s : State) (i : Z) (pt : Point),
      wf s ->
      let j := normalize (len (imgs s)) i in
      index (imgs s) j = Ok None ->
      exists s' nm,
        setImage s i pt = Ok s' /\ index (names s) j = Ok nm /\
        origin s' = origin s /\ current s' = j /\
        imgs s' = imgs s /\ names s' = names s /\ win s' = win s /\
        panStart s' = panStart s /\ panOrigin s' = panOrigin s /\
        imgLoadChans s' = <[Z.to_nat j := None]> (imgLoadChans s) /\
        trace s' = trace s ++ cleared s j ++ [nameSet (nm +:+ " - Loading...")]
                   ++ match imgLoadChans s !! Z.to_nat j with
                      | Some (Some c) => [ping c]
                      | _ => []
                      end) /\
  (forall (s s' : State) (e : event),
      switches e = true -> step s e = Ok s' -> viewed s' = None ->
      origin s' = origin s).
Proof.
  split.
  - intros s i pt Hwf j Himg.
    destruct (wf_slot s j Hwf (wf_normalize s i Hwf)) as (o & nm & ch & _ & Hnm & Hch).
    eexists. exists nm.
    split; [now apply setImage_unloaded with (nm := nm) (ch := ch) |].
    split; [assumption |]. cbn.
    apply index_Ok in Hch as [_ ->]. repeat (split; [reflexivity |]).
    destruct ch; reflexivity.
  - intros s s' e He Hstep Hv.
    apply (step_switches s e s' He) in Hstep as (i & pt & Hstep).
    destruct (setImage_inv s i pt s' Hstep) as
      [(nm & ch & _ & _ & _ & Hs) | (v & Himg & Hs)];
      rewrite Hs in Hstep; injection Hstep as <-; [reflexivity |].
    exfalso. unfold viewed in Hv. cbn in Hv. now rewrite Himg in Hv.
Qed.

Lemma switch_to_unloaded_keeps_origin_witness :
  exists s',
    step (set_origin (threeUnloaded 0) (Pt 40 30)) nextImg = Ok s' /\
    origin s' = Pt 40 30 /\ current s' = 1 /\
    trace s' = [ClearAll; nameSet "b.png - Loading..."; ping 1].
Proof.
  destruct switch_to_unloaded_keeps_origin as [Hset _].
  destruct (Hset (set_origin (threeUnloaded 0) (Pt 40 30)) 1 (Pt 0 0))
    as (s' & nm & Hs & Hnm & Ho & Hc & _ & _ & _ & _ & _ & _ & Ht).
  - constructor; unfold len; cbn; int_lia.
  - reflexivity.
  - exists s'. split; [exact Hs |]. split; [exact Ho |]. split; [exact Hc |].
    injection Hnm as <-. exact Ht.
Defined.

(** ** Load completion *)

(** C9. A load completion [(index, image)] never changes [current] or
    [origin], and paints nothing when [index] is not [current]; for an index
    within the slots it stores the image in that slot and, when [index] is
    [current], paints the part of the image at the stored origin re-clamped
    and sets the title. *)
Theorem load_completion_frame (s : State) (img : vimage) (i : Z) :
  (forall (o : option vimage) (s' : State),
      step s (imgChan o i) = Ok s' ->
      current s' = current s /\ origin s' = origin s /\
      (i <> current s -> trace s' = trace s)) /\
  (0 <= i < len (imgs s) ->
   exists s',
     step s (imgChan (Some img) i) = Ok s' /\
     imgs s' = <[Z.to_nat i := Some img]> (imgs s) /\
     current s' = current s /\ origin s' = origin s /\
     win s' = win s /\ names s' = names s /\
     imgLoadChans s' = imgLoadChans s /\
     panStart s' = panStart s /\ panOrigin s' = panOrigin s /\
     (i <> current s -> trace s' = trace s) /\
     (i = current s ->
      let c := originTrans (origin s) (win s) (Some img) in
      exists title,
        trace s' = trace s ++
          [ paint img (Rect (X c) (Y c)
                            (Int.add (X c) (Width (Geom (win s))))
                            (Int.add (Y c) (Height (Geom (win s)))));
            nameSet title ])).
Proof.
  split.
  - intros o s'. cbn [step].
    destruct (store (imgs s) i o) as [l|p]; [|discriminate].
    cbn [mbind result_bind]. fields.
    destruct (Z.eqb_spec (current s) i) as [Hc|Hc].
    + destruct (index l (current s)) as [cur|p]; [|discriminate].
      intros [= <-]. cbn. repeat split. congruence.
    + intros [= <-]. cbn. repeat split.
  - intros Hi. cbn [step]. rewrite store_Ok by assumption.
    cbn [mbind result_bind]. fields.
    destruct (Z.eqb_spec (current s) i) as [Hc|Hc].
    + assert (index (<[Z.to_nat i := Some img]> (imgs s)) (current s)
              = Ok (Some img)) as ->.
      { apply index_Ok. rewrite len_insert. split; [lia |].
        rewrite Hc. apply list_lookup_insert_eq. unfold len in Hi. lia. }
      eexists. split; [reflexivity |]. cbn.
      repeat (split; [reflexivity |]).
      split; [congruence |]. intros _. eexists. reflexivity.
    + eexists. split; [reflexivity |]. cbn.
      repeat (split; [reflexivity |]).
      intros Heq. congruence.
Qed.

Lemma load_completion_frame_witness :
  exists s',
    step (threeUnloaded 0) (imgChan (Some (img800x600 "a.png")) 0) = Ok s' /\
    imgs s' = [Some (img800x600 "a.png"); None; None] /\
    current s' = 0 /\ origin s' = Pt 0 0.
Proof.
  destruct (load_completion_frame (threeUnloaded 0) (img800x600 "a.png") 0)
    as [_ Hin].
  destruct Hin as (s' & Hs & Hi & Hc & Ho & _); [vm_compute; split; [discriminate | reflexivity] |].
  exists s'. repeat split; assumption.
Defined.

(** ** Resize-to-image *)

(** C2 does not hold of the code.  With one image that is not loaded yet, a
    resize-to-image request makes the loop dereference the nil image. *)
Theorem resize_before_load_panics :
  boot win400x300 ["a.png"] 1 [Recv resizeToImageChan]
  = Panicked NilPointerDereference.
Proof. reflexivity. Qed.

(** On a well-formed state the loop returns from each event, given that a
    view transform carries a function, that a load completion names one of
    the slots and that a resize-to-image request finds its image loaded. *)
Lemma step_total s e :
  wf s ->
  e <> drawChan None ->
  (forall o i, e = imgChan o i -> 0 <= i < len (imgs s)) ->
  (e = resizeToImageChan -> viewed s <> None) ->
  exists s', step s e = Ok s'.
Proof.
  intros Hwf Hnil Hload Hresize.
  destruct e as [o i|[f|]| | | |pt|pt|pt]; cbn [step]; try congruence;
    try (match goal with
         | |- exists s', setImage _ ?i ?pt = _ =>
             destruct (setImage_total s i pt Hwf) as (s' & Hs & _);
             exists s'; exact Hs
         end);
    try (eexists; reflexivity).
  - specialize (Hload o i eq_refl). rewrite store_Ok by assumption.
    cbn [mbind result_bind]. fields.
    destruct (current s =? i); [|eauto].
    destruct (index_total (<[Z.to_nat i := o]> (imgs s)) (current s)) as [cur ->].
    { rewrite len_insert. now destruct Hwf. }
    cbn [mbind result_bind]. eauto.
  - specialize (Hresize eq_refl). unfold viewed in Hresize.
    destruct (index (imgs s) (current s)) as [[v|]|p];
      cbn [mbind result_bind]; [eauto | congruence | congruence].
Qed.

(** ** Panning *)

Lemma sub_diag a : Int.sub a a = 0.
Proof. unfold Int.sub. rewrite Z.sub_diag. reflexivity. Qed.

Lemma add_zero_l a : Int.ok a -> Int.add 0 a = a.
Proof. intros Ha. unfold Int.add. rewrite Z.add_0_l. now apply wrap_id. Qed.

(** C8, as the code has it.  In a state whose current slot is loaded,
    pan-start at [p0] followed by pan-step at the same [p0] stores the clamp
    of the origin that was in effect at pan-start, and leaves [current] as it
    was; the origin is unchanged exactly when it was already in the clamped
    range of the current image and window. *)
Theorem pan_roundtrip (s : State) (p0 : Point) (img : vimage) :
  viewed s = Some img ->
  Int.ok (X (origin s)) -> Int.ok (Y (origin s)) ->
  exists s1 s2,
    step s (panStartChan p0) = Ok s1 /\
    step s1 (panStepChan p0) = Ok s2 /\
    current s2 = current s /\
    origin s2 = originTrans (origin s) (win s) (Some img) /\
    (origin s2 = origin s <-> in_clamp_range s).
Proof.
  intros Hv Hx Hy. pose proof Hv as Himg. apply viewed_Some in Himg.
  pose proof Himg as Hrange. apply index_Ok in Hrange as [Hc _].
  exists (set_pan s p0 (origin s)). eexists.
  split; [reflexivity |]. cbn [step]. fields.
  rewrite !sub_diag, !add_zero_l by assumption.
  replace (Pt (X (origin s)) (Y (origin s))) with (origin s)
    by (destruct (origin s); reflexivity).
  split.
  - apply setImage_loaded with (v := img). fields.
    now rewrite normalize_id.
  - cbn. rewrite normalize_id by assumption.
    split; [reflexivity |]. split; [reflexivity |].
    unfold in_clamp_range. rewrite Hv. split; intros H; exact H.
Qed.

Lemma pan_roundtrip_witness :
  exists s1 s2,
    step (firstLoaded (Pt 40 30)) (panStartChan (Pt 5 5)) = Ok s1 /\
    step s1 (panStepChan (Pt 5 5)) = Ok s2 /\
    origin s2 = Pt 40 30.
Proof.
  destruct (pan_roundtrip (firstLoaded (Pt 40 30)) (Pt 5 5) (img800x600 "a.png"))
    as (s1 & s2 & H1 & H2 & _ & Ho & _).
  - reflexivity.
  - vm_compute. split; discriminate.
  - vm_compute. split; discriminate.
  - exists s1, s2. split; [exact H1 |]. split; [exact H2 |].
    rewrite Ho. reflexivity.
Defined.

(** C8, as stated, fails.  After the first image was scrolled to (400, 300),
    Next was taken and the second, 100x100, image arrived, the current slot
    is loaded and the stored origin is still (400, 300); pan-start and
    pan-step at the same point then move the origin to (0, 0). *)
Lemma pan_roundtrip_moves_origin :
  exists s s1 s2,
    boot win400x300 twoNames 2 scrollNextLoad = Ok s /\
    viewed s = Some (img100x100 "b.png") /\
    step s (panStartChan (Pt 5 5)) = Ok s1 /\
    step s1 (panStepChan (Pt 5 5)) = Ok s2 /\
    origin s = Pt 400 300 /\ origin s2 = Pt 0 0 /\ origin s2 <> origin s.
Proof.
  do 3 eexists.
  split; [vm_compute; reflexivity |].
  split; [reflexivity |].
  split; [reflexivity |].
  split; [vm_compute; reflexivity |].
  split; [reflexivity |]. split; [reflexivity | discriminate].
Qed.

(** ** The stored origin and the clamped range *)

Lemma setImage_clamped s i pt s' :
  setImage s i pt = Ok s' -> viewed s' <> None -> in_clamp_range s'.
Proof.
  intros Hs Hv.
  destruct (setImage_inv s i pt s' Hs) as
    [(nm & ch & Himg & _ & _ & Heq) | (v & Himg & Heq)];
    rewrite Heq in Hs; apply Ok_inj in Hs; subst s'.
  - exfalso. apply Hv. unfold viewed. cbn. now rewrite Himg.
  - unfold in_clamp_range, viewed. cbn [imgs current origin win].
    rewrite Himg. rewrite !originTrans_axes. cbn [X Y].
    now rewrite !clamp1_idem.
Qed.

Lemma index_insert_ne {A : Type} (l : list A) (i c : Z) (a : A) :
  0 <= i -> i <> c -> index (<[Z.to_nat i := a]> l) c = index l c.
Proof.
  intros Hi Hne. unfold index. rewrite len_insert.
  destruct (Z.ltb_spec c 0); [reflexivity |].
  destruct (Z.leb_spec (len l) c); [reflexivity |]. cbn.
  rewrite list_lookup_insert_ne by lia. reflexivity.
Qed.

Lemma act_keeps_clamped s a s' :
  keeps (current s) a = true -> act s a = Ok s' ->
  win s' = win s /\ current s' = current s /\ origin s' = origin s /\
  viewed s' = viewed s.
Proof.
  intros Hk. destruct a as [e|g]; [| discriminate]. cbn [act].
  destruct e as [o i|f| | | |pt|pt|pt]; try discriminate; cbn [step].
  - cbn [keeps] in Hk. destruct (Z.eqb_spec (current s) i) as [|Hne]; [discriminate |].
    destruct (store (imgs s) i o) as [l|p] eqn:Hst; [|discriminate].
    apply store_inv in Hst as [Hi ->]. cbn [mbind result_bind]. fields.
    destruct (Z.eqb_spec (current s) i); [contradiction |].
    intros H. apply Ok_inj in H. subst s'.
    unfold viewed. cbn [imgs current origin win].
    rewrite index_insert_ne by lia. repeat split.
  - intros H. apply Ok_inj in H. subst s'. repeat split.
  - intros H. apply Ok_inj in H. subst s'. repeat split.
Qed.

Lemma run_keeps_clamped acts : forall s s',
  forallb (keeps (current s)) acts = true -> run s acts = Ok s' ->
  win s' = win s /\ current s' = current s /\ origin s' = origin s /\
  viewed s' = viewed s.
Proof.
  induction acts as [|a acts IH]; intros s s'; cbn [run forallb].
  - intros _ H. apply Ok_inj in H. subst s'. repeat split.
  - intros Hall. apply andb_prop in Hall as [Ha Hrest].
    destruct (act s a) as [s1|p] eqn:Hact; [|discriminate].
    cbn [mbind result_bind]. intros Hrun.
    destruct (act_keeps_clamped s a s1 Ha Hact) as (Hw & Hc & Ho & Hv).
    rewrite <- Hc in Hrest.
    destruct (IH s1 s' Hrest Hrun) as (Hw' & Hc' & Ho' & Hv').
    repeat split; congruence.
Qed.

(** C1, as the code has it.  The stored origin lies in the clamped range of
    the image in the current slot and of the window size when the loop
    starts; in every state reached from the start by a sequence of events and
    window changes that ends with an event that switches (a view transform,
    Previous, Next or a pan step) and finds the current slot loaded; and from
    a state where it does, through any sequence of pan starts, pan ends and
    load completions for other slots, over which the window size, [current]
    and the origin stay as they were.  A change of the window size, and a
    resize-to-image request, which asks for one, are not covered. *)
Theorem origin_clamped_after_switch :
  (forall (window : window) (names : list string) (nimgs : Z) (s0 : State),
      canvas window names nimgs = Ok s0 -> in_clamp_range s0) /\
  (forall (window : window) (names : list string) (nimgs : Z)
          (acts : list action) (e : event) (s : State),
      boot window names nimgs (acts ++ [Recv e]) = Ok s ->
      switches e = true ->
      viewed s <> None ->
      in_clamp_range s) /\
  (forall (s s' : State) (acts : list action),
      in_clamp_range s ->
      forallb (keeps (current s)) acts = true ->
      run s acts = Ok s' ->
      in_clamp_range s' /\
      win s' = win s /\ current s' = current s /\ origin s' = origin s).
Proof.
  split; [| split].
  - intros window names nimgs s0. unfold canvas.
    destruct (nimgs <? 0); [discriminate |].
    intros H. apply Ok_inj in H. subst s0.
    unfold in_clamp_range, viewed. cbn [imgs current origin win].
    destruct (index _ 0) as [[v|]|p] eqn:Hidx; try reflexivity.
    apply index_Ok in Hidx as [_ Hl]. apply lookup_replicate in Hl as [[=] _].
  - intros window names nimgs acts e s Hboot He Hv.
    destruct (boot_snoc _ _ _ _ _ _ Hboot) as (s1 & _ & Hact). cbn [act] in Hact.
    destruct (step_switches s1 e s He Hact) as (i & pt & Hset).
    eapply setImage_clamped; eauto.
  - intros s s' acts Hin Hall Hrun.
    destruct (run_keeps_clamped acts s s' Hall Hrun) as (Hw & Hc & Ho & Hv).
    repeat split; try assumption.
    unfold in_clamp_range in *. now rewrite Hw, Ho, Hv.
Qed.

Lemma origin_clamped_after_switch_witness :
  exists s,
    boot win400x300 twoNames 2
         ([Recv (imgChan (Some (img800x600 "a.png")) 0)] ++ [Recv (drawChan (Some plus1000))])
    = Ok s /\
    origin s = Pt 400 300 /\ in_clamp_range s.
Proof.
  destruct origin_clamped_after_switch as (_ & Hswitch & _).
  eexists. split; [vm_compute; reflexivity |]. split; [reflexivity |].
  apply (Hswitch win400x300 twoNames 2
           [Recv (imgChan (Some (img800x600 "a.png")) 0)] (drawChan (Some plus1000))).
  - vm_compute. reflexivity.
  - reflexivity.
  - vm_compute. discriminate.
Defined.

(** C1, as stated, fails.  After the first image was scrolled to (400, 300)
    and Next was taken to the second slot, which is not loaded, the stored
    origin is still (400, 300), while the clamp for the absent image returns
    (0, 0). *)
Lemma origin_outside_clamp_after_next :
  exists s,
    boot win400x300 twoNames 2 scrollThenNext = Ok s /\
    current s = 1 /\ viewed s = None /\ origin s = Pt 400 300 /\
    originTrans (origin s) (win s) (viewed s) = Pt 0 0 /\
    ~ in_clamp_range s.
Proof.
  eexists. split; [vm_compute; reflexivity |].
  repeat (split; [reflexivity |]). unfold in_clamp_range. discriminate.
Qed.

(** ** The load channels *)

Lemma pings_app k tr1 tr2 :
  pings k (tr1 ++ tr2) = (pings k tr1 + pings k tr2)%nat.
Proof.
  induction tr1 as [|e tr1 IH]; [reflexivity |].
  destruct e; cbn [pings app]; rewrite IH; lia.
Qed.

Lemma pings_cleared k s j : pings k (cleared s j) = 0%nat.
Proof. unfold cleared. destruct (current s =? j); reflexivity. Qed.

Lemma pings_show k w o pt : pings k (show w o pt) = 0%nat.
Proof. destruct o; reflexivity. Qed.

(** Making a slot's channel nil takes it out of the count of its channel. *)
Lemma armed_insert_None k chans : forall n ch,
  chans !! n = Some ch ->
  (armed k (<[n := None]> chans)
   + match ch with Some c => if Nat.eqb c k then 1 else 0 | None => 0 end
   = armed k chans)%nat.
Proof.
  induction chans as [|x chans IH]; intros n ch Hl; [discriminate |].
  destruct n as [|n]; cbn in Hl.
  - injection Hl as ->. destruct ch; cbn; lia.
  - specialize (IH n ch Hl).
    change (<[S n := None]> (x :: chans)) with (x :: <[n := None]> chans).
    destruct x; cbn [armed]; lia.
Qed.

Lemma armed_seq k n : forall a,
  (armed k (Some <$> seq a n) <= 1)%nat /\
  (k < a -> armed k (Some <$> seq a n) = 0)%nat.
Proof.
  induction n as [|n IH]; intros a; cbn; [lia |].
  destruct (IH (S a)) as [IH1 IH2].
  destruct (Nat.eqb_spec a k) as [->|Hne]; split; intros; lia.
Qed.

(** Pings sent on a channel plus slots still holding it: no step changes
    the sum. *)
Lemma setImage_budget k s i pt s' :
  setImage s i pt = Ok s' ->
  (pings k (trace s') + armed k (imgLoadChans s')
   = pings k (trace s) + armed k (imgLoadChans s))%nat.
Proof.
  intros Hs.
  destruct (setImage_inv s i pt s' Hs) as
    [(nm & ch & _ & _ & Hch & Heq) | (v & _ & Heq)];
    rewrite Heq in Hs; apply Ok_inj in Hs; subst s';
    cbn [trace imgLoadChans]; rewrite !pings_app, ?pings_cleared, ?pings_show.
  - apply index_Ok in Hch as [_ Hl].
    pose proof (armed_insert_None k _ _ _ Hl) as Ha.
    destruct ch as [c|]; cbn [pings] in *; lia.
  - lia.
Qed.

Lemma step_budget k s e s' :
  step s e = Ok s' ->
  (pings k (trace s') + armed k (imgLoadChans s')
   = pings k (trace s) + armed k (imgLoadChans s))%nat.
Proof.
  destruct e as [o i|[f|]| | | |pt|pt|pt]; cbn [step]; try discriminate;
    try (now apply setImage_budget).
  - destruct (store (imgs s) i o) as [l|p]; [|discriminate].
    cbn [mbind result_bind]. fields.
    destruct (current s =? i).
    + destruct (index l (current s)) as [cur|p]; [|discriminate].
      intros H. apply Ok_inj in H. subst s'. cbn [trace imgLoadChans].
      rewrite pings_app, pings_show. lia.
    + now intros [= <-].
  - destruct (index (imgs s) (current s)) as [[v|]|p]; try discriminate.
    intros H. apply Ok_inj in H. subst s'. unfold emit. cbn [trace imgLoadChans].
    rewrite pings_app. cbn. lia.
  - now intros [= <-].
  - now intros [= <-].
Qed.

Lemma run_budget k acts : forall s s',
  run s acts = Ok s' ->
  (pings k (trace s') + armed k (imgLoadChans s')
   = pings k (trace s) + armed k (imgLoadChans s))%nat.
Proof.
  induction acts as [|a acts IH]; intros s s'; cbn [run].
  - now intros [= <-].
  - destruct (act s a) as [s1|p] eqn:Ha; [|discriminate].
    cbn [mbind result_bind]. intros Hrun. rewrite (IH _ _ Hrun).
    destruct a as [e|g]; cbn [act] in Ha.
    + now apply step_budget with (e := e).
    + now injection Ha as <-.
Qed.

(** A nil channel stays nil. *)
Lemma setImage_nil_stays s i pt s' n :
  setImage s i pt = Ok s' ->
  imgLoadChans s !! n = Some None -> imgLoadChans s' !! n = Some None.
Proof.
  intros Hs Hn.
  destruct (setImage_inv s i pt s' Hs) as
    [(nm & ch & _ & _ & Hch & Heq) | (v & _ & Heq)];
    rewrite Heq in Hs; apply Ok_inj in Hs; subst s'; cbn [imgLoadChans];
    [| assumption].
  destruct (decide (Z.to_nat (normalize (len (imgs s)) i) = n)) as [<-|Hne].
  - apply list_lookup_insert_eq. eapply lookup_lt_Some; eauto.
  - now rewrite list_lookup_insert_ne.
Qed.

Lemma run_nil_stays n acts : forall s s',
  run s acts = Ok s' ->
  imgLoadChans s !! n = Some None -> imgLoadChans s' !! n = Some None.
Proof.
  induction acts as [|a acts IH]; intros s s'; cbn [run].
  - now intros [= <-].
  - destruct (act s a) as [s1|p] eqn:Ha; [|discriminate].
    cbn [mbind result_bind]. intros Hrun Hn. apply (IH _ _ Hrun).
    destruct a as [e|g]; cbn [act] in Ha; [| now injection Ha as <-].
    destruct e as [o i|[f|]| | | |pt|pt|pt]; cbn [step] in Ha; try discriminate;
      try (now eapply setImage_nil_stays; eauto).
    + destruct (store (imgs s) i o) as [l|p]; [|discriminate].
      cbn [mbind result_bind] in Ha. revert Ha. fields.
      destruct (current s =? i).
      * destruct (index l (current s)) as [cur|p]; [|discriminate].
        now intros [= <-].
      * now intros [= <-].
    + destruct (index (imgs s) (current s)) as [[v|]|p]; try discriminate.
      now injection Ha as <-.
    + now injection Ha as <-.
    + now injection Ha as <-.
Qed.

(** C7. Over any run from the start each load channel is pinged at most
    once.  A Switch-To that reaches a slot that is not loaded and still holds
    its channel pings it and makes the slot's channel nil; one that reaches a
    slot that is not loaded and whose channel is nil pings nothing; and a nil
    channel stays nil for the rest of the run. *)
Theorem trigger_fires_at_most_once :
  (forall (window : window) (names : list string) (nimgs : Z)
          (acts : list action) (s : State) (k : nat),
      boot window names nimgs acts = Ok s -> (pings k (trace s) <= 1)%nat) /\
  (forall (s : State) (i : Z) (pt : Point) (c : nat),
      wf s ->
      let j := normalize (len (imgs s)) i in
      index (imgs s) j = Ok None ->
      index (imgLoadChans s) j = Ok (Some c) ->
      exists s',
        setImage s i pt = Ok s' /\
        pings c (trace s') = S (pings c (trace s)) /\
        (forall k, k <> c -> pings k (trace s') = pings k (trace s)) /\
        index (imgLoadChans s') j = Ok None) /\
  (forall (s : State) (i : Z) (pt : Point),
      wf s ->
      let j := normalize (len (imgs s)) i in
      index (imgs s) j = Ok None ->
      index (imgLoadChans s) j = Ok None ->
      exists s',
        setImage s i pt = Ok s' /\
        (forall k, pings k (trace s') = pings k (trace s)) /\
        imgLoadChans s' = imgLoadChans s) /\
  (forall (s s' : State) (acts : list action) (n : nat),
      run s acts = Ok s' ->
      imgLoadChans s !! n = Some None -> imgLoadChans s' !! n = Some None).
Proof.
  split; [| split; [| split]].
  - intros window names nimgs acts s k. unfold boot, canvas.
    destruct (nimgs <? 0); [discriminate |]. cbn [mbind result_bind].
    intros Hrun. apply (run_budget k) in Hrun. cbn [trace imgLoadChans pings] in Hrun.
    destruct (armed_seq k (Z.to_nat nimgs) 0%nat) as [Hle _]. lia.
  - intros s i pt c Hwf j Himg Hch.
    destruct (wf_slot s j Hwf (wf_normalize s i Hwf)) as (o & nm & ch & _ & Hnm & _).
    eexists. split; [now apply setImage_unloaded with (nm := nm) (ch := Some c) |].
    cbn [trace imgLoadChans]. apply index_Ok in Hch as [Hj Hl].
    split; [| split].
    + rewrite !pings_app, pings_cleared. cbn. rewrite Nat.eqb_refl. lia.
    + intros k Hk. rewrite !pings_app, pings_cleared. cbn.
      destruct (Nat.eqb_spec c k); [congruence | lia].
    + apply index_Ok. rewrite len_insert. split; [assumption |].
      apply list_lookup_insert_eq. eapply lookup_lt_Some; eauto.
  - intros s i pt Hwf j Himg Hch.
    destruct (wf_slot s j Hwf (wf_normalize s i Hwf)) as (o & nm & ch & _ & Hnm & _).
    eexists. split; [now apply setImage_unloaded with (nm := nm) (ch := None) |].
    cbn [trace imgLoadChans]. apply index_Ok in Hch as [Hj Hl]. split.
    + intros k. rewrite !pings_app, pings_cleared. cbn. lia.
    + now apply list_insert_id.
  - intros s s' acts n. apply run_nil_stays.
Qed.

Lemma trigger_fires_at_most_once_witness :
  exists s,
    boot win400x300 twoNames 2 revisit = Ok s /\
    trace s = [ ClearAll; nameSet "b.png - Loading..."; ping 1;
                ClearAll; nameSet "a.png - Loading..."; ping 0;
                ClearAll; nameSet "b.png - Loading..." ] /\
    (pings 1 (trace s) <= 1)%nat.
Proof.
  destruct trigger_fires_at_most_once as [Honce _].
  eexists. split; [vm_compute; reflexivity |]. split; [reflexivity |].
  apply (Honce win400x300 twoNames 2 revisit). vm_compute. reflexivity.
Defined.

(** * Further properties of the canvas *)

(** ** The Geometry Transform: order and fixed points *)

Lemma clamp1_mono d w u p q : p <= q -> clamp1 d w u p <= clamp1 d w u q.
Proof. intros Hpq. unfold clamp1. destruct (d <? w); lia. Qed.

(** X1. The clamp preserves the order of candidate points on each axis: a
    candidate further right (further down) never ends up further left
    (further up).  This holds for the nil image too. *)
Theorem originTrans_monotone (p q : Point) (win : window) (img : option vimage) :
  (X p <= X q -> X (originTrans p win img) <= X (originTrans q win img)) /\
  (Y p <= Y q -> Y (originTrans p win img) <= Y (originTrans q win img)).
Proof.
  destruct img as [v|]; [| cbn; lia].
  rewrite !originTrans_axes. cbn [X Y]. split; apply clamp1_mono.
Qed.

Lemma originTrans_monotone_witness :
  X (originTrans (Pt 10 0) win400x300 (Some (img800x600 "a.png")))
  <= X (originTrans (Pt 950 0) win400x300 (Some (img800x600 "a.png"))).
Proof.
  apply (originTrans_monotone (Pt 10 0) (Pt 950 0)). vm_compute. discriminate.
Defined.

Lemma clamp1_fix0 d w p :
  Int.ok d -> 0 <= w -> 0 <= p <= Z.max 0 (d - w) ->
  clamp1 d w (Int.add 0 (Int.sub d w)) p = p.
Proof.
  intros Hd Hw Hp. unfold clamp1. destruct (Z.ltb_spec d w); [lia |].
  rewrite (slack_exact d w Hd) by lia. rewrite add_exact by int_lia. lia.
Qed.

(** X2. For an image whose bounds start at (0, 0) and a window of
    non-negative size, the points the clamp leaves as they are are exactly
    those of the box [[0, max(0, imgW - winW)] x [0, max(0, imgH - winH)]]. *)
Theorem originTrans_fixed_points (p : Point) (win : window) (img : vimage) :
  Min (Bounds img) = Pt 0 0 ->
  0 <= Width (Geom win) -> 0 <= Height (Geom win) ->
  (originTrans p win (Some img) = p <->
   0 <= X p <= Z.max 0 (Dx (Bounds img) - Width (Geom win)) /\
   0 <= Y p <= Z.max 0 (Dy (Bounds img) - Height (Geom win))).
Proof.
  intros Hmin Hw Hh. rewrite originTrans_axes. cbn zeta. rewrite Hmin. cbn [X Y].
  split.
  - intros Heq.
    pose proof (clamp1_range0 (Dx (Bounds img)) (Width (Geom win)) (X p)
                  (Dx_ok _) Hw) as Hx.
    pose proof (clamp1_range0 (Dy (Bounds img)) (Height (Geom win)) (Y p)
                  (Dy_ok _) Hh) as Hy.
    rewrite <- Heq at 1 2 3 4. cbn [X Y]. split; assumption.
  - intros [Hx Hy]. destruct p as [x y]. cbn [X Y] in *.
    rewrite !clamp1_fix0 by auto using Dx_ok, Dy_ok. reflexivity.
Qed.

Lemma originTrans_fixed_points_witness :
  originTrans (Pt 120 300) win400x300 (Some (img800x600 "a.png")) = Pt 120 300.
Proof.
  apply originTrans_fixed_points.
  - reflexivity.
  - vm_compute. discriminate.
  - vm_compute. discriminate.
  - vm_compute. repeat split; discriminate.
Defined.

(** ** The Paint Pipeline *)

Lemma show_loaded w v pt :
  show w (Some v) pt =
  [ paint v (Rect (X (originTrans pt w (Some v))) (Y (originTrans pt w (Some v)))
                  (Int.add (X (originTrans pt w (Some v))) (Width (Geom w)))
                  (Int.add (Y (originTrans pt w (Some v))) (Height (Geom w))));
    nameSet (name v +:+ " (" +:+ Int.itoa (Dx (Bounds v)) +:+ "x"
             +:+ Int.itoa (Dy (Bounds v)) +:+ ")") ].
Proof. reflexivity. Qed.

Lemma originTrans_twice pt w o :
  originTrans (originTrans pt w o) w o = originTrans pt w o.
Proof.
  destruct o as [v|]; [| reflexivity].
  rewrite !originTrans_axes. cbn [X Y]. now rewrite !clamp1_idem.
Qed.

(** X3. [show] paints the same part of the image and sets the same title
    whether it is given a candidate point or that point already clamped: the
    clamp [setImage] applies before it calls [show] does not change what is
    painted. *)
Theorem show_of_clamped (w : window) (o : option vimage) (pt : Point) :
  show w o (originTrans pt w o) = show w o pt.
Proof.
  destruct o as [v|]; [| reflexivity].
  rewrite !show_loaded. now rewrite (originTrans_twice pt w (Some v)).
Qed.

(** X4. When the bounds of the image start at (0, 0) and the image is at
    least as wide and as high as the window, [show] makes one paint call and
    one title call, and the painted rectangle has the size of the window and
    lies within the bounds of the image, whatever the candidate point. *)
Theorem show_paints_within_image (w : window) (v : vimage) (pt : Point) :
  Min (Bounds v) = Pt 0 0 ->
  Int.ok (X (Max (Bounds v))) -> Int.ok (Y (Max (Bounds v))) ->
  0 <= Width (Geom w) <= X (Max (Bounds v)) ->
  0 <= Height (Geom w) <= Y (Max (Bounds v)) ->
  exists r title,
    show w (Some v) pt = [paint v r; nameSet title] /\
    0 <= X (Min r) /\ 0 <= Y (Min r) /\
    X (Max r) <= X (Max (Bounds v)) /\ Y (Max r) <= Y (Max (Bounds v)) /\
    X (Max r) - X (Min r) = Width (Geom w) /\
    Y (Max r) - Y (Min r) = Height (Geom w).
Proof.
  intros Hmin Hmx Hmy Hw Hh.
  assert (Dx (Bounds v) = X (Max (Bounds v))) as Hdx.
  { unfold Dx. rewrite Hmin. cbn [X]. rewrite sub_exact; rewrite Z.sub_0_r; auto. }
  assert (Dy (Bounds v) = Y (Max (Bounds v))) as Hdy.
  { unfold Dy. rewrite Hmin. cbn [Y]. rewrite sub_exact; rewrite Z.sub_0_r; auto. }
  rewrite show_loaded. set (c := originTrans pt w (Some v)).
  assert (0 <= X c <= X (Max (Bounds v)) - Width (Geom w) /\
          0 <= Y c <= Y (Max (Bounds v)) - Height (Geom w)) as [Hx Hy].
  { subst c. rewrite originTrans_axes. cbn zeta. rewrite Hmin. cbn [X Y].
    pose proof (clamp1_range0 (Dx (Bounds v)) (Width (Geom w)) (X pt)
                  (Dx_ok _) (proj1 Hw)) as Hx.
    pose proof (clamp1_range0 (Dy (Bounds v)) (Height (Geom w)) (Y pt)
                  (Dy_ok _) (proj1 Hh)) as Hy.
    rewrite Hdx in *. rewrite Hdy in *. lia. }
  rewrite !add_exact by int_lia.
  do 2 eexists. split; [reflexivity |]. unfold Rect.
  destruct (Z.ltb_spec (X c + Width (Geom w)) (X c)); [lia |].
  destruct (Z.ltb_spec (Y c + Height (Geom w)) (Y c)); [lia |].
  cbn [X Y Min Max]. lia.
Qed.

Lemma show_paints_within_image_witness :
  exists r title,
    show win400x300 (Some (img800x600 "a.png")) (Pt 1000 (-5))
    = [paint (img800x600 "a.png") r; nameSet title] /\
    0 <= X (Min r) /\ 0 <= Y (Min r) /\ X (Max r) <= 800 /\ Y (Max r) <= 600.
Proof.
  destruct (show_paints_within_image win400x300 (img800x600 "a.png") (Pt 1000 (-5)))
    as (r & title & Hs & H1 & H2 & H3 & H4 & _).
  - reflexivity.
  - vm_compute. split; discriminate.
  - vm_compute. split; discriminate.
  - vm_compute. split; discriminate.
  - vm_compute. split; discriminate.
  - exists r, title. repeat split; assumption.
Defined.

(** ** What a step leaves alone *)

Lemma setImage_frame s i pt s' :
  setImage s i pt = Ok s' ->
  names s' = names s /\ win s' = win s /\ imgs s' = imgs s /\
  panStart s' = panStart s /\ panOrigin s' = panOrigin s /\
  length (imgLoadChans s') = length (imgLoadChans s) /\
  current s' = normalize (len (imgs s)) i.
Proof.
  intros Hs.
  destruct (setImage_inv s i pt s' Hs) as
    [(nm & ch & _ & _ & _ & Heq) | (v & _ & Heq)];
    rewrite Heq in Hs; apply Ok_inj in Hs; subst s'; cbn;
    rewrite ?length_insert; repeat split.
Qed.

Lemma step_frame s e s' :
  step s e = Ok s' ->
  names s' = names s /\ win s' = win s /\
  length (imgs s') = length (imgs s) /\
  length (imgLoadChans s') = length (imgLoadChans s).
Proof.
  destruct e as [o i|[f|]| | | |pt|pt|pt]; cbn [step]; try discriminate;
    try (intros Hs; apply setImage_frame in Hs as (-> & -> & -> & _ & _ & -> & _);
         repeat split; fail).
  - destruct (store (imgs s) i o) as [l|p] eqn:Hst; [|discriminate].
    apply store_inv in Hst as [_ ->]. cbn [mbind result_bind]. fields.
    destruct (current s =? i).
    + destruct (index _ (current s)) as [cur|p]; [|discriminate].
      intros H. apply Ok_inj in H. subst s'. cbn. now rewrite length_insert.
    + intros H. apply Ok_inj in H. subst s'. cbn. now rewrite length_insert.
  - destruct (index (imgs s) (current s)) as [[v|]|p]; try discriminate.
    intros H. apply Ok_inj in H. subst s'. cbn. repeat split.
  - intros H. apply Ok_inj in H. subst s'. cbn. repeat split.
  - intros H. apply Ok_inj in H. subst s'. cbn. repeat split.
Qed.

Lemma act_frame s a s' :
  act s a = Ok s' ->
  names s' = names s /\
  length (imgs s') = length (imgs s) /\
  length (imgLoadChans s') = length (imgLoadChans s).
Proof.
  destruct a as [e|g]; cbn [act].
  - intros Hs. apply step_frame in Hs as (? & _ & ? & ?). auto.
  - intros H. apply Ok_inj in H. subst s'. cbn. repeat split.
Qed.

Lemma run_frame acts : forall s s',
  run s acts = Ok s' ->
  names s' = names s /\
  length (imgs s') = length (imgs s) /\
  length (imgLoadChans s') = length (imgLoadChans s).
Proof.
  induction acts as [|a acts IH]; intros s s'; cbn [run].
  - intros H. apply Ok_inj in H. subst s'. repeat split.
  - destruct (act s a) as [s1|p] eqn:Ha; [|discriminate].
    cbn [mbind result_bind]. intros Hrun.
    apply IH in Hrun as (-> & -> & ->). now apply (act_frame s a).
Qed.

(** X5. Started with at least one image and a name for each, the loop keeps
    [current] a valid slot index for as long as it runs, whatever the events
    and window changes; the number of slots and of load channels stays the
    number of images and the names stay the ones given. *)
Theorem run_keeps_current_in_range
    (window : window) (names0 : list string) (nimgs : Z)
    (acts : list action) (s : State) :
  1 <= nimgs <= Int.maxInt -> nimgs <= len names0 ->
  boot window names0 nimgs acts = Ok s ->
  0 <= current s < nimgs /\
  len (imgs s) = nimgs /\ len (imgLoadChans s) = nimgs /\ names s = names0.
Proof.
  intros Hn Hnames. unfold boot.
  destruct (wf_canvas window names0 nimgs Hn Hnames) as (s0 & Hc & Hwf).
  rewrite Hc. cbn [mbind result_bind]. intros Hrun.
  pose proof (wf_run _ _ _ Hwf Hrun) as [_ _ _ _ Hcur].
  apply run_frame in Hrun as (Hnm & Hli & Hlc).
  unfold canvas in Hc. destruct (nimgs <? 0); [discriminate |].
  apply Ok_inj in Hc. subst s0. cbn in Hnm, Hli, Hlc.
  rewrite length_replicate in Hli. rewrite length_fmap, length_seq in Hlc.
  unfold len in *. rewrite Hli in Hcur. rewrite Hli, Hlc.
  repeat split; (lia || assumption).
Qed.

Lemma run_keeps_current_in_range_witness :
  exists s,
    boot win400x300 twoNames 2 scrollNextLoad = Ok s /\
    0 <= current s < 2 /\ len (imgs s) = 2.
Proof.
  eexists. split; [vm_compute; reflexivity |].
  destruct (run_keeps_current_in_range win400x300 twoNames 2 scrollNextLoad _
              ltac:(vm_compute; split; discriminate)
              ltac:(vm_compute; discriminate)
              ltac:(vm_compute; reflexivity)) as (Hc & Hl & _).
  split; assumption.
Defined.

(** ** Which messages the loop returns from *)

Lemma run_safe acts : forall s,
  wf s -> forallb (safe (len (imgs s))) acts = true ->
  exists s', run s acts = Ok s'.
Proof.
  induction acts as [|a acts IH]; intros s Hwf Hsafe; cbn [run].
  - eauto.
  - cbn [forallb] in Hsafe. apply andb_prop in Hsafe as [Ha Hrest].
    assert (exists s1, act s a = Ok s1) as [s1 Hs1].
    { destruct a as [e|g]; cbn [act]; [| eauto].
      apply step_total; [assumption | | |].
      - intros ->. discriminate.
      - intros o i ->. cbn [safe] in Ha. lia.
      - intros ->. discriminate. }
    rewrite Hs1. cbn [mbind result_bind]. apply IH.
    + eapply wf_act; eauto.
    + apply act_frame in Hs1 as (_ & Hl & _). unfold len. now rewrite Hl.
Qed.

(** X6. Started with at least one image and a name for each, the loop
    returns from every sequence of view transforms, Previous and Next
    requests, pan starts, steps and ends, window changes and load completions
    whose index is one of the slots: none of them panics. *)
Theorem run_returns_on_safe_actions
    (window : window) (names0 : list string) (nimgs : Z) (acts : list action) :
  1 <= nimgs <= Int.maxInt -> nimgs <= len names0 ->
  forallb (safe nimgs) acts = true ->
  exists s, boot window names0 nimgs acts = Ok s.
Proof.
  intros Hn Hnames Hsafe. unfold boot.
  destruct (wf_canvas window names0 nimgs Hn Hnames) as (s0 & Hc & Hwf).
  rewrite Hc. cbn [mbind result_bind]. apply run_safe; [assumption |].
  replace (len (imgs s0)) with nimgs; [assumption |].
  unfold canvas in Hc. destruct (nimgs <? 0); [discriminate |].
  apply Ok_inj in Hc. subst s0. unfold len. cbn. rewrite length_replicate. lia.
Qed.

Lemma run_returns_on_safe_actions_witness :
  exists s, boot win400x300 twoNames 2 scrollNextLoad = Ok s.
Proof.
  apply run_returns_on_safe_actions.
  - vm_compute. split; discriminate.
  - vm_compute. discriminate.
  - reflexivity.
Defined.

(** X7. A load completion is handled exactly when its index is one of the
    slots; for any other index the store into [imgs] panics. *)
Theorem load_completion_returns_iff (s : State) (o : option vimage) (i : Z) :
  (exists s', step s (imgChan o i) = Ok s') <-> 0 <= i < len (imgs s).
Proof.
  cbn [step]. split.
  - intros [s' Hs].
    destruct (store (imgs s) i o) as [l|p] eqn:Hst; [|discriminate].
    now apply store_inv in Hst as [Hi _].
  - intros Hi. rewrite store_Ok by assumption. cbn [mbind result_bind]. fields.
    destruct (Z.eqb_spec (current s) i) as [Hc|Hc]; [| eauto].
    destruct (index_total (<[Z.to_nat i := o]> (imgs s)) (current s)) as [cur ->].
    { rewrite len_insert. lia. }
    cbn [mbind result_bind]. eauto.
Qed.



Lemma load_completion_returns_iff_witness :
  exists s', step (threeUnloaded 0) (imgChan (Some (img100x100 "c.png")) 2) = Ok s'.
Proof.
  apply load_completion_returns_iff. vm_compute. split; [discriminate | reflexivity].
Defined.


(** X9. The name list is read only on the way to a slot that is not loaded:
    switching to such a slot whose index has no name panics, while switching
    to a loaded slot returns whatever the name list is. *)
Theorem setImage_names_only_for_unloaded (s : State) (i : Z) (pt : Point) :
  let j := normalize (len (imgs s)) i in
  (index (imgs s) j = Ok None -> len (names s) <= j ->
   setImage s i pt = Panicked IndexOutOfRange) /\
  (forall v, index (imgs s) j = Ok (Some v) -> exists s', setImage s i pt = Ok s').
Proof.
  intros j. split.
  - intros Himg Hlen.
    assert (index (names s) j = Panicked IndexOutOfRange) as Hnm.
    { unfold index. destruct (Z.ltb_spec j 0); [reflexivity |].
      destruct (Z.leb_spec (len (names s)) j); [reflexivity | lia]. }
    unfold setImage. fold j.
    destruct (current s =? j); cbn [negb]; fields;
      rewrite Himg; cbn [mbind result_bind]; fields;
      rewrite Hnm; reflexivity.
  - intros v Himg. eexists. now apply setImage_loaded with (v := v).
Qed.

Lemma setImage_names_only_for_unloaded_witness :
  step {| win := win400x300; names := ["a.png"];
          imgs := [None; None]; imgLoadChans := [Some 0%nat; Some 1%nat];
          current := 0; origin := Pt 0 0; panStart := Pt 0 0;
          panOrigin := Pt 0 0; trace := [] |} nextImg
  = Panicked IndexOutOfRange.
Proof.
  apply setImage_names_only_for_unloaded.
  - reflexivity.
  - vm_compute. discriminate.
Defined.

(** ** Navigation *)

Lemma step_next s :
  wf s ->
  exists s', step s nextImg = Ok s' /\ wf s' /\ imgs s' = imgs s /\
             current s' = (current s + 1) mod len (imgs s).
Proof.
  intros Hwf. cbn [step].
  destruct (setImage_total s (Int.add (current s) 1) (Pt 0 0) Hwf)
    as (s' & Hs & Hwf' & Hc & Hi).
  exists s'. repeat (split; [assumption |]). rewrite Hc.
  destruct Hwf as [H1 H2 _ _ H5]. rewrite normalize_next by lia.
  destruct (Z.eqb_spec (current s) (len (imgs s) - 1)) as [Heq|Hne].
  - replace (current s + 1) with (len (imgs s)) by lia.
    now rewrite Z.mod_same by lia.
  - now rewrite Z.mod_small by lia.
Qed.

Lemma step_prev s :
  wf s ->
  exists s', step s prevImg = Ok s' /\ wf s' /\ imgs s' = imgs s /\
             current s' = (current s - 1) mod len (imgs s).
Proof.
  intros Hwf. cbn [step].
  destruct (setImage_total s (Int.sub (current s) 1) (Pt 0 0) Hwf)
    as (s' & Hs & Hwf' & Hc & Hi).
  exists s'. repeat (split; [assumption |]). rewrite Hc.
  destruct Hwf as [H1 H2 _ _ H5]. rewrite normalize_prev by lia.
  destruct (Z.eqb_spec (current s) 0) as [Heq|Hne].
  - rewrite Heq.
    replace (0 - 1) with (-1 * len (imgs s) + (len (imgs s) - 1)) by lia.
    rewrite Z.add_comm, Z.mod_add by lia. now rewrite Z.mod_small by lia.
  - now rewrite Z.mod_small by lia.
Qed.

(** X10. Next followed by Previous, and Previous followed by Next, come back
    to the slot they started from. *)
Theorem next_prev_roundtrip (s : State) :
  wf s ->
  (exists s1 s2, step s nextImg = Ok s1 /\ step s1 prevImg = Ok s2 /\
                 current s2 = current s) /\
  (exists s1 s2, step s prevImg = Ok s1 /\ step s1 nextImg = Ok s2 /\
                 current s2 = current s).
Proof.
  intros Hwf. pose proof Hwf as [H1 H2 _ _ H5]. split.
  - destruct (step_next s Hwf) as (s1 & Hs1 & Hwf1 & Hi1 & Hc1).
    destruct (step_prev s1 Hwf1) as (s2 & Hs2 & _ & _ & Hc2).
    exists s1, s2. repeat (split; [assumption |]).
    rewrite Hc2, Hc1, Hi1. rewrite Zminus_mod_idemp_l.
    replace (current s + 1 - 1) with (current s) by lia.
    now rewrite Z.mod_small by lia.
  - destruct (step_prev s Hwf) as (s1 & Hs1 & Hwf1 & Hi1 & Hc1).
    destruct (step_next s1 Hwf1) as (s2 & Hs2 & _ & _ & Hc2).
    exists s1, s2. repeat (split; [assumption |]).
    rewrite Hc2, Hc1, Hi1. rewrite Zplus_mod_idemp_l.
    replace (current s - 1 + 1) with (current s) by lia.
    now rewrite Z.mod_small by lia.
Qed.

Lemma next_prev_roundtrip_witness :
  exists s1 s2,
    step (threeUnloaded 2) nextImg = Ok s1 /\ step s1 prevImg = Ok s2 /\
    current s2 = 2.
Proof.
  destruct (next_prev_roundtrip (threeUnloaded 2)) as [H _].
  - constructor; unfold len; cbn; int_lia.
  - exact H.
Defined.

Lemma run_nexts k : forall s,
  wf s ->
  exists s', run s (replicate k (Recv nextImg)) = Ok s' /\
             current s' = (current s + Z.of_nat k) mod len (imgs s).
Proof.
  induction k as [|k IH]; intros s Hwf.
  - exists s. split; [reflexivity |]. destruct Hwf as [_ _ _ _ H5].
    cbn [Z.of_nat]. rewrite Z.add_0_r. now rewrite Z.mod_small by lia.
  - destruct (step_next s Hwf) as (s1 & Hs1 & Hwf1 & Hi1 & Hc1).
    destruct (IH s1 Hwf1) as (s' & Hrun & Hc).
    exists s'. cbn [replicate run act]. rewrite Hs1. cbn [mbind result_bind].
    split; [assumption |]. rewrite Hc, Hc1, Hi1. rewrite Zplus_mod_idemp_l.
    f_equal. lia.
Qed.

(** X11. [k] Next requests in a row move [current] forward by [k] modulo the
    number of images; as many Next requests as there are images come back to
    the slot they started from. *)
Theorem next_cycles (s : State) (k : nat) :
  wf s ->
  (exists s', run s (replicate k (Recv nextImg)) = Ok s' /\
              current s' = (current s + Z.of_nat k) mod len (imgs s)) /\
  (exists s', run s (replicate (length (imgs s)) (Recv nextImg)) = Ok s' /\
              current s' = current s).
Proof.
  intros Hwf. split; [now apply run_nexts |].
  destruct (run_nexts (length (imgs s)) s Hwf) as (s' & Hrun & Hc).
  exists s'. split; [assumption |]. rewrite Hc.
  destruct Hwf as [H1 _ _ _ H5]. fold (len (imgs s)).
  rewrite <- (Z.mul_1_l (len (imgs s))) at 1.
  rewrite Z.mod_add by lia. now rewrite Z.mod_small by lia.
Qed.

Lemma next_cycles_witness :
  exists s', run (threeUnloaded 1) (replicate 3 (Recv nextImg)) = Ok s' /\
             current s' = 1.
Proof.
  destruct (next_cycles (threeUnloaded 1) 3) as [_ H].
  - constructor; unfold len; cbn; int_lia.
  - exact H.
Defined.

Lemma originTrans_zero w v :
  Min (Bounds v) = Pt 0 0 -> 0 <= Width (Geom w) -> 0 <= Height (Geom w) ->
  originTrans (Pt 0 0) w (Some v) = Pt 0 0.
Proof.
  intros Hmin Hw Hh. rewrite originTrans_axes. cbn zeta. rewrite Hmin. cbn [X Y].
  rewrite !clamp1_fix0 by (auto using Dx_ok, Dy_ok; lia). reflexivity.
Qed.

(** X12. Previous and Next to a slot that is loaded, with an image whose
    bounds start at (0, 0) and a window of non-negative size, store the
    origin (0, 0): the image is shown from its top-left corner, wherever the
    previous image was scrolled to. *)
Theorem navigation_resets_origin (s : State) (e : event) :
  wf s -> e = nextImg \/ e = prevImg ->
  exists s',
    step s e = Ok s' /\
    forall img,
      viewed s' = Some img -> Min (Bounds img) = Pt 0 0 ->
      0 <= Width (Geom (win s)) -> 0 <= Height (Geom (win s)) ->
      origin s' = Pt 0 0.
Proof.
  intros Hwf He.
  assert (exists i, step s e = setImage s i (Pt 0 0)) as [i Heq]
    by (destruct He as [-> | ->]; cbn [step]; eauto).
  destruct (setImage_total s i (Pt 0 0) Hwf) as (s' & Hs & _).
  exists s'. split; [congruence |]. intros img Hv Hmin Hw Hh.
  destruct (setImage_inv s i (Pt 0 0) s' Hs) as
    [(nm & ch & Himg & _ & _ & Hs') | (v & Himg & Hs')];
    rewrite Hs' in Hs; apply Ok_inj in Hs; subst s';
    unfold viewed in Hv; cbn [imgs current] in Hv; rewrite Himg in Hv.
  - discriminate.
  - injection Hv as ->. cbn [origin]. now apply originTrans_zero.
Qed.

Lemma navigation_resets_origin_witness :
  exists s',
    step (set_current (firstLoaded (Pt 400 300)) 1) prevImg = Ok s' /\
    origin s' = Pt 0 0.
Proof.
  destruct (navigation_resets_origin (set_current (firstLoaded (Pt 400 300)) 1) prevImg)
    as (s' & Hs & Ho).
  - constructor; unfold len; cbn; int_lia.
  - right. reflexivity.
  - exists s'. split; [exact Hs |].
    apply (Ho (img800x600 "a.png")).
    + pose proof Hs as Hs'. vm_compute in Hs'. apply Ok_inj in Hs'.
      rewrite <- Hs'. reflexivity.
    + reflexivity.
    + vm_compute. discriminate.
    + vm_compute. discriminate.
Defined.

(** ** Clearing the window *)

Lemma setImage_effects s i pt s' :
  setImage s i pt = Ok s' ->
  exists tr, trace s' = trace s ++ cleared s (current s') ++ tr /\ ClearAll ∉ tr.
Proof.
  intros Hs.
  destruct (setImage_inv s i pt s' Hs) as
    [(nm & ch & _ & _ & _ & Heq) | (v & _ & Heq)];
    rewrite Heq in Hs; apply Ok_inj in Hs; subst s'; cbn [trace current].
  - eexists. split; [reflexivity |].
    destruct ch; rewrite ?elem_of_app, ?elem_of_cons, ?elem_of_nil;
      intros H; decompose [or] H; discriminate || assumption.
  - eexists. split; [reflexivity |]. rewrite show_loaded.
    rewrite ?elem_of_cons, ?elem_of_nil.
    intros H; decompose [or] H; discriminate || assumption.
Qed.

(** X13. Handling an event only ever adds to what was done to the window,
    and it clears the window exactly when it changes [current]: a view
    transform or a pan step never clears, and with a single image neither do
    Previous and Next. *)
Theorem clear_iff_current_changes (s s' : State) (e : event) :
  step s e = Ok s' ->
  exists tr, trace s' = trace s ++ tr /\ (ClearAll ∈ tr <-> current s' <> current s).
Proof.
  assert (forall i pt, setImage s i pt = Ok s' ->
            exists tr, trace s' = trace s ++ tr /\
                       (ClearAll ∈ tr <-> current s' <> current s)) as Hset.
  { intros i pt Hs. destruct (setImage_effects s i pt s' Hs) as (tr & Ht & Hn).
    exists (cleared s (current s') ++ tr). split; [assumption |].
    unfold cleared. rewrite elem_of_app.
    destruct (Z.eqb_spec (current s) (current s')) as [Heq|Hne].
    - rewrite elem_of_nil.
      split; [intros [[]|H]; contradiction | intros H; lia].
    - rewrite elem_of_cons. split; [intros _; lia | auto]. }
  destruct e as [o i|[f|]| | | |pt|pt|pt]; cbn [step]; try discriminate;
    try apply Hset.
  - destruct (store (imgs s) i o) as [l|p]; [|discriminate].
    cbn [mbind result_bind]. fields.
    destruct (current s =? i).
    + destruct (index l (current s)) as [[v|]|p]; try discriminate;
        intros H; apply Ok_inj in H; subst s'; cbn [trace current];
        eexists; (split; [reflexivity |]).
      * rewrite show_loaded, ?elem_of_cons, ?elem_of_nil.
        split; [intros H; decompose [or] H; discriminate || contradiction
               | intros H; lia].
      * cbn [show]. rewrite elem_of_nil.
        split; [contradiction | intros H; lia].
    + intros H. apply Ok_inj in H. subst s'. exists []. cbn [trace current].
      rewrite app_nil_r, elem_of_nil. split; [reflexivity |].
      split; [contradiction | intros H; lia].
  - destruct (index (imgs s) (current s)) as [[v|]|p]; try discriminate.
    intros H. apply Ok_inj in H. subst s'. unfold emit. cbn [trace current].
    eexists. split; [reflexivity |]. rewrite ?elem_of_cons, ?elem_of_nil.
    split; [intros H; decompose [or] H; discriminate || contradiction
           | intros H; lia].
  - intros H. apply Ok_inj in H. subst s'. exists []. fields.
    rewrite app_nil_r, elem_of_nil. split; [reflexivity |].
    split; [contradiction | intros H; lia].
  - intros H. apply Ok_inj in H. subst s'. exists []. fields.
    rewrite app_nil_r, elem_of_nil. split; [reflexivity |].
    split; [contradiction | intros H; lia].
Qed.

Lemma clear_iff_current_changes_witness :
  exists s' tr,
    step (threeUnloaded 0) nextImg = Ok s' /\
    trace s' = trace (threeUnloaded 0) ++ tr /\ ClearAll ∈ tr.
Proof.
  eexists.
  match goal with
  | |- exists tr, ?st = Ok ?s' /\ _ =>
      let v := eval vm_compute in st in
      match v with Ok ?s0 => unify s' s0 end
  end.
  match goal with
  | |- exists tr, _ = Ok ?s' /\ _ =>
      destruct (clear_iff_current_changes (threeUnloaded 0) s' nextImg)
        as (tr & Ht & Hc); [vm_compute; reflexivity |];
      exists tr
  end.
  split; [vm_compute; reflexivity |]. split; [exact Ht |].
  apply Hc. vm_compute. discriminate.
Defined.

(** ** The slots *)

Lemma act_imgs n s a s' :
  act s a = Ok s' -> writes n a = false -> imgs s' !! n = imgs s !! n.
Proof.
  destruct a as [e|g]; cbn [act];
    [| intros H _; apply Ok_inj in H; subst s'; reflexivity].
  destruct e as [o i|[f|]| | | |pt|pt|pt]; cbn [step writes]; try discriminate;
    try (intros Hs _; apply setImage_frame in Hs as (_ & _ & -> & _); reflexivity).
  - intros Hs Hw.
    destruct (store (imgs s) i o) as [l|p] eqn:Hst; [|discriminate].
    apply store_inv in Hst as [Hi ->]. cbn [mbind result_bind] in Hs.
    revert Hs. fields.
    assert (Z.to_nat i <> n) as Hne by (apply Z.eqb_neq in Hw; lia).
    destruct (current s =? i).
    + destruct (index _ (current s)) as [cur|p]; [|discriminate].
      intros H. apply Ok_inj in H. subst s'. cbn [imgs].
      now apply list_lookup_insert_ne.
    + intros H. apply Ok_inj in H. subst s'. cbn [imgs].
      now apply list_lookup_insert_ne.
  - destruct (index (imgs s) (current s)) as [[v|]|p]; try discriminate.
    intros H _. apply Ok_inj in H. subst s'. reflexivity.
  - intros H _. apply Ok_inj in H. subst s'. reflexivity.
  - intros H _. apply Ok_inj in H. subst s'. reflexivity.
Qed.

(** X14. A slot changes only through a load completion for its own index:
    over any run without one, whatever else happens (navigation, panning,
    view transforms, window changes, load completions for other slots), the
    slot holds what it held; a loaded image is never dropped. *)
Theorem slot_kept_without_load (n : nat) (acts : list action) (s s' : State) :
  run s acts = Ok s' ->
  forallb (fun a => negb (writes n a)) acts = true ->
  imgs s' !! n = imgs s !! n.
Proof.
  revert s. induction acts as [|a acts IH]; intros s; cbn [run forallb].
  - intros H _. apply Ok_inj in H. now subst s'.
  - destruct (act s a) as [s1|p] eqn:Ha; [|discriminate].
    cbn [mbind result_bind]. intros Hrun Hall.
    apply andb_prop in Hall as [Hw Hrest].
    rewrite (IH s1 Hrun Hrest). apply (act_imgs n s a s1 Ha).
    now apply negb_true_iff.
Qed.

Lemma slot_kept_without_load_witness :
  exists s',
    run (firstLoaded (Pt 0 0))
        [Recv nextImg; Recv (imgChan (Some (img100x100 "b.png")) 1); Recv prevImg]
    = Ok s' /\
    imgs s' !! 0%nat = Some (Some (img800x600 "a.png")).
Proof.
  eexists. split; [vm_compute; reflexivity |].
  rewrite (slot_kept_without_load 0
             [Recv nextImg; Recv (imgChan (Some (img100x100 "b.png")) 1); Recv prevImg]
             (firstLoaded (Pt 0 0))).
  - reflexivity.
  - vm_compute. reflexivity.
  - reflexivity.
Defined.

(** ** Panning *)

Lemma pan_step_loaded s pt img :
  viewed s = Some img ->
  step s (panStepChan pt) =
  Ok {| win := win s; names := names s; imgs := imgs s;
        imgLoadChans := imgLoadChans s; current := current s;
        origin :=
          originTrans
            (Pt (Int.add (Int.sub (X (panStart s)) (X pt)) (X (panOrigin s)))
                (Int.add (Int.sub (Y (panStart s)) (Y pt)) (Y (panOrigin s))))
            (win s) (Some img);
        panStart := panStart s; panOrigin := panOrigin s;
        trace := trace s ++
          show (win s) (Some img)
            (originTrans
               (Pt (Int.add (Int.sub (X (panStart s)) (X pt)) (X (panOrigin s)))
                   (Int.add (Int.sub (Y (panStart s)) (Y pt)) (Y (panOrigin s))))
               (win s) (Some img)) |}.
Proof.
  intros Hv. apply viewed_Some in Hv.
  pose proof Hv as Hrange. apply index_Ok in Hrange as [Hc _].
  cbn [step]. rewrite (setImage_loaded s _ _ img) by now rewrite normalize_id.
  rewrite normalize_id by assumption. unfold cleared. rewrite Z.eqb_refl.
  reflexivity.
Qed.

(** X15. Dragging: with the current slot loaded, a pan start at [p0]
    followed by a pan step at [p] stores the clamp of the origin at pan start
    moved by [p0 - p], provided the differences and sums fit in an [int];
    [current] is unchanged. *)
Theorem pan_drag (s : State) (p0 p : Point) (img : vimage) :
  viewed s = Some img ->
  Int.ok (X p0 - X p) -> Int.ok (Y p0 - Y p) ->
  Int.ok (X p0 - X p + X (origin s)) -> Int.ok (Y p0 - Y p + Y (origin s)) ->
  exists s1 s2,
    step s (panStartChan p0) = Ok s1 /\
    step s1 (panStepChan p) = Ok s2 /\
    current s2 = current s /\
    origin s2 =
      originTrans (Pt (X (origin s) + (X p0 - X p)) (Y (origin s) + (Y p0 - Y p)))
                  (win s) (Some img).
Proof.
  intros Hv Hx Hy Hxo Hyo.
  exists (set_pan s p0 (origin s)). eexists.
  split; [reflexivity |].
  split; [apply pan_step_loaded with (img := img); exact Hv |].
  cbn [current origin]. fields. split; [reflexivity |].
  rewrite !sub_exact by assumption. rewrite !add_exact by assumption.
  f_equal. f_equal; lia.
Qed.

Lemma pan_drag_witness :
  exists s1 s2,
    step (firstLoaded (Pt 40 30)) (panStartChan (Pt 200 100)) = Ok s1 /\
    step s1 (panStepChan (Pt 150 120)) = Ok s2 /\
    origin s2 = Pt 90 10.
Proof.
  destruct (pan_drag (firstLoaded (Pt 40 30)) (Pt 200 100) (Pt 150 120)
              (img800x600 "a.png"))
    as (s1 & s2 & H1 & H2 & _ & Ho).
  - reflexivity.
  - vm_compute. split; discriminate.
  - vm_compute. split; discriminate.
  - vm_compute. split; discriminate.
  - vm_compute. split; discriminate.
  - exists s1, s2. split; [exact H1 |]. split; [exact H2 |].
    rewrite Ho. reflexivity.
Defined.

(** X16. Pan steps do not add up: with the current slot loaded, the origin
    after two pan steps in a row is the origin after the second one alone,
    since each step starts again from the origin recorded at pan start. *)
Theorem pan_steps_do_not_accumulate (s : State) (p1 p2 : Point) (img : vimage) :
  viewed s = Some img ->
  exists s1 s2 s2',
    step s (panStepChan p1) = Ok s1 /\
    step s1 (panStepChan p2) = Ok s2 /\
    step s (panStepChan p2) = Ok s2' /\
    origin s2 = origin s2' /\ current s2 = current s.
Proof.
  intros Hv. do 3 eexists.
  split; [apply pan_step_loaded with (img := img); exact Hv |].
  split; [apply pan_step_loaded with (img := img) |].
  - unfold viewed in *. cbn [imgs current]. exact Hv.
  - split; [apply pan_step_loaded with (img := img); exact Hv |].
    cbn. split; reflexivity.
Qed.

Lemma pan_steps_do_not_accumulate_witness :
  exists s1 s2 s2',
    step (firstLoaded (Pt 40 30)) (panStepChan (Pt (-10) (-10))) = Ok s1 /\
    step s1 (panStepChan (Pt (-25) (-5))) = Ok s2 /\
    step (firstLoaded (Pt 40 30)) (panStepChan (Pt (-25) (-5))) = Ok s2' /\
    origin s2 = origin s2'.
Proof.
  destruct (pan_steps_do_not_accumulate (firstLoaded (Pt 40 30))
              (Pt (-10) (-10)) (Pt (-25) (-5)) (img800x600 "a.png"))
    as (s1 & s2 & s2' & H1 & H2 & H3 & Ho & _).
  - reflexivity.
  - exists s1, s2, s2'. repeat (split; [assumption |]). exact Ho.
Defined.

Lemma originTrans_nonpos p w o :
  X p <= 0 -> Y p <= 0 -> originTrans p w o = originTrans (Pt 0 0) w o.
Proof.
  intros Hx Hy. destruct o as [v|]; [| reflexivity].
  rewrite !originTrans_axes. cbn [X Y]. unfold clamp1.
  replace (Z.max (X p) 0) with (Z.max 0 0) by lia.
  replace (Z.max (Y p) 0) with (Z.max 0 0) by lia. reflexivity.
Qed.

(** X17. A pan step that follows a pan end with no pan start in between is
    taken as a drag from (0, 0) with origin (0, 0): with the current slot
    loaded and the pointer at non-negative coordinates, it stores the clamp
    of (0, 0), wherever the view was. *)
Theorem pan_step_after_pan_end (s : State) (q pt : Point) (img : vimage) :
  viewed s = Some img ->
  0 <= X pt <= Int.maxInt -> 0 <= Y pt <= Int.maxInt ->
  exists s1 s2,
    step s (panEndChan q) = Ok s1 /\
    step s1 (panStepChan pt) = Ok s2 /\
    origin s2 = originTrans (Pt 0 0) (win s) (Some img).
Proof.
  intros Hv Hx Hy. exists (set_pan s (Pt 0 0) (Pt 0 0)). eexists.
  split; [reflexivity |].
  split; [apply pan_step_loaded with (img := img); exact Hv |].
  cbn [origin]. fields. cbn [X Y].
  rewrite !(sub_exact 0) by int_lia. rewrite !add_exact by int_lia.
  apply originTrans_nonpos; cbn [X Y]; lia.
Qed.

Lemma pan_step_after_pan_end_witness :
  exists s1 s2,
    step (firstLoaded (Pt 400 300)) (panEndChan (Pt 7 7)) = Ok s1 /\
    step s1 (panStepChan (Pt 210 95)) = Ok s2 /\
    origin s2 = Pt 0 0.
Proof.
  destruct (pan_step_after_pan_end (firstLoaded (Pt 400 300)) (Pt 7 7) (Pt 210 95)
              (img800x600 "a.png"))
    as (s1 & s2 & H1 & H2 & Ho).
  - reflexivity.
  - vm_compute. split; discriminate.
  - vm_compute. split; discriminate.
  - exists s1, s2. split; [exact H1 |]. split; [exact H2 |].
    rewrite Ho. reflexivity.
Defined.

(** ** Switching to a slot before its image arrives *)

(** X18. When Switch-To reaches a slot that is not loaded and the image of
    that slot arrives next, the image is painted at the origin of the view
    before the switch, clamped for the new image; the candidate point of the
    switch ((0, 0) for Previous and Next) plays no part, and the stored
    origin is still the one from before the switch. *)
Theorem late_load_paints_at_old_origin
    (s : State) (i : Z) (pt : Point) (img : vimage) :
  wf s ->
  let j := normalize (len (imgs s)) i in
  index (imgs s) j = Ok None ->
  exists s1 s2,
    setImage s i pt = Ok s1 /\
    step s1 (imgChan (Some img) j) = Ok s2 /\
    current s2 = j /\ origin s2 = origin s /\
    trace s2 = trace s1 ++ show (win s) (Some img) (origin s).
Proof.
  intros Hwf j Himg. pose proof (wf_normalize s i Hwf) as Hj. fold j in Hj.
  destruct (wf_slot s j Hwf Hj) as (o & nm & ch & _ & Hnm & Hch).
  do 2 eexists.
  split; [now apply setImage_unloaded with (nm := nm) (ch := ch) |].
  cbn [step]. fields. rewrite store_Ok by assumption.
  cbn [mbind result_bind]. fields. rewrite Z.eqb_refl. fold j.
  assert (index (<[Z.to_nat j := Some img]> (imgs s)) j = Ok (Some img)) as ->.
  { apply index_Ok. rewrite len_insert. split; [assumption |].
    apply list_lookup_insert_eq. unfold len in Hj. lia. }
  cbn [mbind result_bind]. fields. split; [reflexivity |]. repeat split.
Qed.

Lemma late_load_paints_at_old_origin_witness :
  exists s1 s2,
    step (firstLoaded (Pt 400 300)) nextImg = Ok s1 /\
    step s1 (imgChan (Some (img800x600 "b.png")) 1) = Ok s2 /\
    origin s2 = Pt 400 300 /\
    trace s2 = trace s1 ++
      [ paint (img800x600 "b.png") (Rect 400 300 800 600);
        nameSet "b.png (800x600)" ].
Proof.
  destruct (late_load_paints_at_old_origin (firstLoaded (Pt 400 300)) 1 (Pt 0 0)
              (img800x600 "b.png"))
    as (s1 & s2 & H1 & H2 & _ & Ho & Ht).
  - constructor; unfold len; cbn; int_lia.
  - reflexivity.
  - exists s1, s2. split; [exact H1 |]. split; [exact H2 |].
    split; [exact Ho | exact Ht].
Defined.

(** ** Which load channels have been pinged *)

(** What a step does to the load channels and to the count of pings: nothing,
    or it pings the channel held by one slot and makes that slot's handle
    nil. *)
Lemma setImage_ping_cases s i pt s' :
  setImage s i pt = Ok s' ->
  (imgLoadChans s' = imgLoadChans s /\
   forall k, pings k (trace s') = pings k (trace s)) \/
  (exists n c,
      imgLoadChans s !! n = Some (Some c) /\
      imgLoadChans s' = <[n := None]> (imgLoadChans s) /\
      forall k, pings k (trace s')
                = (pings k (trace s) + if Nat.eqb c k then 1 else 0)%nat).
Proof.
  intros Hs.
  destruct (setImage_inv s i pt s' Hs) as
    [(nm & ch & _ & _ & Hch & Heq) | (v & _ & Heq)];
    rewrite Heq in Hs; apply Ok_inj in Hs; subst s'; cbn [trace imgLoadChans].
  - apply index_Ok in Hch as [_ Hl]. destruct ch as [c|].
    + right. exists (Z.to_nat (normalize (len (imgs s)) i)), c.
      split; [assumption |]. split; [reflexivity |].
      intros k. rewrite !pings_app, pings_cleared. cbn. lia.
    + left. split; [now apply list_insert_id |].
      intros k. rewrite !pings_app, pings_cleared. cbn. lia.
  - left. split; [reflexivity |].
    intros k. rewrite !pings_app, pings_cleared, pings_show. lia.
Qed.

Lemma act_ping_cases s a s' :
  act s a = Ok s' ->
  (imgLoadChans s' = imgLoadChans s /\
   forall k, pings k (trace s') = pings k (trace s)) \/
  (exists n c,
      imgLoadChans s !! n = Some (Some c) /\
      imgLoadChans s' = <[n := None]> (imgLoadChans s) /\
      forall k, pings k (trace s')
                = (pings k (trace s) + if Nat.eqb c k then 1 else 0)%nat).
Proof.
  destruct a as [e|g]; cbn [act];
    [| intros H; apply Ok_inj in H; subst s'; left; split; reflexivity].
  destruct e as [o i|[f|]| | | |pt|pt|pt]; cbn [step]; try discriminate;
    try apply setImage_ping_cases.
  - destruct (store (imgs s) i o) as [l|p]; [|discriminate].
    cbn [mbind result_bind]. fields.
    destruct (current s =? i).
    + destruct (index l (current s)) as [cur|p]; [|discriminate].
      intros H. apply Ok_inj in H. subst s'. left. cbn [trace imgLoadChans].
      split; [reflexivity |]. intros k. rewrite pings_app, pings_show. lia.
    + intros H. apply Ok_inj in H. subst s'. left. split; reflexivity.
  - destruct (index (imgs s) (current s)) as [[v|]|p]; try discriminate.
    intros H. apply Ok_inj in H. subst s'. left. unfold emit.
    cbn [trace imgLoadChans]. split; [reflexivity |].
    intros k. rewrite pings_app. cbn. lia.
  - intros H. apply Ok_inj in H. subst s'. left. split; reflexivity.
  - intros H. apply Ok_inj in H. subst s'. left. split; reflexivity.
Qed.

Lemma act_synced s a s' :
  (forall k, (k < length (imgLoadChans s))%nat -> slot_synced s k) ->
  act s a = Ok s' ->
  forall k, (k < length (imgLoadChans s'))%nat -> slot_synced s' k.
Proof.
  intros Hinv Ha k Hk.
  destruct (act_ping_cases s a s' Ha) as [[Hch Hp] | (n & c & Hl & Hch & Hp)].
  - unfold slot_synced. rewrite Hch, Hp. apply Hinv. now rewrite <- Hch.
  - rewrite Hch, length_insert in Hk.
    pose proof (lookup_lt_Some _ _ _ Hl) as Hn.
    destruct (Hinv n Hn) as [[Hp0 Hln] | [_ Hln]];
      rewrite Hl in Hln; [| discriminate].
    injection Hln as ->. unfold slot_synced. rewrite Hch, !Hp.
    destruct (Nat.eqb_spec n k) as [<-|Hne].
    + right. rewrite Hp0. split; [reflexivity |].
      now apply list_lookup_insert_eq.
    + rewrite list_lookup_insert_ne by assumption. rewrite Nat.add_0_r.
      now apply Hinv.
Qed.

Lemma run_synced acts : forall s s',
  (forall k, (k < length (imgLoadChans s))%nat -> slot_synced s k) ->
  run s acts = Ok s' ->
  forall k, (k < length (imgLoadChans s'))%nat -> slot_synced s' k.
Proof.
  induction acts as [|a acts IH]; intros s s' Hinv; cbn [run].
  - intros H. apply Ok_inj in H. now subst s'.
  - destruct (act s a) as [s1|p] eqn:Ha; [|discriminate].
    cbn [mbind result_bind]. apply IH. eapply act_synced; eauto.
Qed.

(** X19. Over any run from the start, for every slot [k]: either its
    channel has not been pinged and the slot still holds it, or it has been
    pinged exactly once and the slot's handle is nil.  So a nil handle always
    means that the load of that slot was started, and by the channel made for
    that very slot. *)
Theorem pinged_iff_handle_nil
    (window : window) (names0 : list string) (nimgs : Z)
    (acts : list action) (s : State) (k : nat) :
  boot window names0 nimgs acts = Ok s ->
  (Z.of_nat k < nimgs) ->
  (pings k (trace s) = 0%nat /\ imgLoadChans s !! k = Some (Some k)) \/
  (pings k (trace s) = 1%nat /\ imgLoadChans s !! k = Some None).
Proof.
  unfold boot, canvas. destruct (Z.ltb_spec nimgs 0); [discriminate |].
  cbn [mbind result_bind]. intros Hrun Hk.
  pose proof (run_frame _ _ _ Hrun) as (_ & _ & Hlen).
  cbn [imgLoadChans] in Hlen. rewrite length_fmap, length_seq in Hlen.
  refine (run_synced acts _ s _ Hrun k _); [| lia].
  unfold slot_synced. cbn [imgLoadChans trace]. intros n Hn.
  rewrite length_fmap, length_seq in Hn.
  left. split; [reflexivity |].
  rewrite list_lookup_fmap, lookup_seq_lt by assumption. reflexivity.
Qed.

Lemma pinged_iff_handle_nil_witness :
  exists s,
    boot win400x300 twoNames 2 revisit = Ok s /\
    pings 1 (trace s) = 1%nat /\ imgLoadChans s !! 1%nat = Some None.
Proof.
  eexists. split; [vm_compute; reflexivity |].
  destruct (pinged_iff_handle_nil win400x300 twoNames 2 revisit _ 1
              ltac:(vm_compute; reflexivity) ltac:(reflexivity))
    as [[H _] | H]; [vm_compute in H; discriminate | exact H].
Defined.
